(** * Arrow game: exit predicate, state key, bounded BFS solver and level generator

    A shallow embedding of the puzzle core of [ArrowGame.jsx]
    ([canExit], [serializeGrid], [findSolutionLimited], [generateRandomLevelAsync]).
    A grid is a list of rows, a row a list of cells, a cell [null] ([None]) or a
    segment object ([Some]).  Segment objects are never mutated by the code, so
    they are values; the arrays holding them are the mutable part, and are
    modelled as a store where aliasing matters (see [HeapStore]). *)

From Stdlib Require Import String Ascii Decimal DecimalNat Bool ZArith Lia Arith List.
Import ListNotations.
Open Scope string_scope.
Open Scope list_scope.
#[local] Set Warnings "-abstract-large-number".

(** ** Data model *)

Inductive Dir := U | D | L | R.

(** [DIR_VECTORS] *)
Definition DIR_VECTORS (d : Dir) : Z * Z :=
  match d with
  | U => ((-1)%Z, 0%Z)
  | D => (1%Z, 0%Z)
  | L => (0%Z, (-1)%Z)
  | R => (0%Z, 1%Z)
  end.

(** A segment object [{ id, dir, len, head }]. *)
Record cell := mkCell { id : nat; dir : Dir; len : nat; head : bool }.

Abbreviation row := (list (option cell)).
Abbreviation grid := (list row).

(** A move [[r, c]]. *)
Definition move := (nat * nat)%type.

(** [grid[r][c]], reading a missing row or column as an empty cell. *)
Definition get (g : grid) (r c : nat) : option cell :=
  nth c (nth r g []) None.

(** [grid[rr][cc]] at integer coordinates (only read in bounds by the code). *)
Definition get_z (g : grid) (rr cc : Z) : option cell :=
  if (rr <? 0)%Z || (cc <? 0)%Z then None else get g (Z.to_nat rr) (Z.to_nat cc).

(** [arr[n] = x] for an index inside the array (the only case the code uses). *)
Fixpoint list_set {A} (l : list A) (n : nat) (x : A) : list A :=
  match l, n with
  | [], _ => []
  | _ :: l', 0 => x :: l'
  | y :: l', S n' => y :: list_set l' n' x
  end.

(** [g[r][c] = v] *)
Definition set_cell (g : grid) (r c : nat) (v : option cell) : grid :=
  list_set g r (list_set (nth r g []) c v).

(** [Array.from({ length: rows }, () => Array(cols).fill(null))] *)
Definition empty_grid (rows cols : nat) : grid := repeat (repeat None cols) rows.

(** [allEmpty] / the solver's goal test. *)
Definition allEmpty (g : grid) : bool :=
  forallb (fun r => forallb (fun c => match c with None => true | Some _ => false end) r) g.

(** ** Exit predicate [canExit] *)

(** The [while] loop: walk from [(rr, cc)] by [(dr, dc)] while inside
    [H x W]; a cell of another piece stops the walk with [false].  The
    [fuel] bounds the number of steps ([length grid + length grid[0] + 1]
    is always enough, see [exit_walk_spec]). *)
Fixpoint exit_walk (g : grid) (i : nat) (H W dr dc : Z) (fuel : nat) (rr cc : Z) : bool :=
  match fuel with
  | O => true
  | S f =>
      if (0 <=? rr)%Z && (rr <? H)%Z && (0 <=? cc)%Z && (cc <? W)%Z then
        match get_z g rr cc with
        | Some other => if negb (Nat.eqb (id other) i) then false
                        else exit_walk g i H W dr dc f (rr + dr) (cc + dc)
        | None => exit_walk g i H W dr dc f (rr + dr) (cc + dc)
        end
      else true
  end.

(** [canExit(grid, r, c)]. (A row index past the grid would make [grid[r][c]]
    throw in the source; every caller passes an in-bounds row.) *)
Definition canExit (g : grid) (r c : nat) : bool :=
  match get g r c with
  | None => false
  | Some x =>
      if negb (head x) then false
      else
        let H := Z.of_nat (length g) in
        let W := Z.of_nat (length (nth 0 g [])) in
        let '(dr, dc) := DIR_VECTORS (dir x) in
        exit_walk g (id x) H W dr dc (length g + length (nth 0 g []) + 1)
          (Z.of_nat r + dr) (Z.of_nat c + dc)
  end.

(** ** State key [serializeGrid] *)

(** [String(n)] for a non-negative integer: its decimal digits. *)
Fixpoint string_of_uint (d : uint) : string :=
  match d with
  | Nil => EmptyString
  | D0 d => String "0" (string_of_uint d)
  | D1 d => String "1" (string_of_uint d)
  | D2 d => String "2" (string_of_uint d)
  | D3 d => String "3" (string_of_uint d)
  | D4 d => String "4" (string_of_uint d)
  | D5 d => String "5" (string_of_uint d)
  | D6 d => String "6" (string_of_uint d)
  | D7 d => String "7" (string_of_uint d)
  | D8 d => String "8" (string_of_uint d)
  | D9 d => String "9" (string_of_uint d)
  end.

Definition string_of_nat (n : nat) : string := string_of_uint (Nat.to_uint n).

(** [c ? c.id : 0] *)
Definition cell_id (o : option cell) : nat :=
  match o with Some x => id x | None => 0 end.

(** [g.map(row => row.map(c => c ? c.id : 0).join(',')).join(';')];
    [String.concat] is [Array.prototype.join]. *)
Definition serializeGrid (g : grid) : string :=
  String.concat ";" (map (fun r => String.concat "," (map (fun c => string_of_nat (cell_id c)) r)) g).

(** ** Bounded BFS solver [findSolutionLimited] *)

(** [removeId(g, id)] on a value grid: clear, inside the [rows x cols] box of
    the start grid, every cell whose piece id is [i]. *)
Definition removeId (rows cols : nat) (g : grid) (i : nat) : grid :=
  fold_left (fun g r =>
    fold_left (fun g c =>
      match get g r c with
      | Some x => if Nat.eqb (id x) i then set_cell g r c None else g
      | None => g
      end) (seq 0 cols) g) (seq 0 rows) g.

(** The [moves] array: heads in the box, row-major, whose [canExit] holds. *)
Definition moves_of (rows cols : nat) (g : grid) : list move :=
  flat_map (fun r =>
    flat_map (fun c =>
      match get g r c with
      | Some x => if head x && canExit g r c then [(r, c)] else []
      | None => []
      end) (seq 0 cols)) (seq 0 rows).

(** [visited.has(key)] *)
Definition has (visited : list string) (key : string) : bool :=
  existsb (String.eqb key) visited.

(** A queue entry [{ grid, seq }]; the grid is a handle into the store. *)
Record node (Hd : Type) := mkNode { ngrid : Hd; nseq : list move }.
Arguments mkNode {Hd}.
Arguments ngrid {Hd}.
Arguments nseq {Hd}.

(** How a run of the loop ends: [RThrow] for the [TypeError] of
    [startGrid[0].length] on a grid without rows, [RDone] with the result
    and the final value of [states]; [RFuel] is the exhaustion of the
    model's step bound, which never happens ([solver_terminates]). *)
Inductive run_result :=
  | RThrow
  | RFuel
  | RDone (res : option (list move)) (states : nat).

Section Solver.
(** The store [St] holding the arrays and the grid handles [Hd] into it:
    [read] reads the grid behind a handle, [cloneState] copies it,
    [removeIdS] is [removeId] (clone, then clear the cells). *)
Variables (St Hd : Type).
Variable read : St -> Hd -> grid.
Variable cloneState : St -> Hd -> Hd * St.
Variable removeIdS : nat -> nat -> St -> Hd -> nat -> Hd * St.

(** [for (const [r, c] of moves) { ... }] *)
Definition expand (rows cols : nat) (g : Hd) (sq : list move) (moves : list move)
           (acc : list (node Hd) * list string * St) : list (node Hd) * list string * St :=
  fold_left (fun '(queue, visited, s) '(r, c) =>
    match get (read s g) r c with
    | None => (queue, visited, s)   (* not reached: [moves] holds cells *)
    | Some x =>
        let '(ng, s') := removeIdS rows cols s g (id x) in
        let key := serializeGrid (read s' ng) in
        if has visited key then (queue, visited, s')
        else (queue ++ [mkNode ng (sq ++ [(r, c)])], key :: visited, s')
    end) moves acc.

(** The [while (queue.length > 0)] loop, [states] counting dequeued nodes. *)
Fixpoint bfs (fuel rows cols maxStates : nat) (queue : list (node Hd))
         (visited : list string) (states : nat) (s : St) : run_result * St :=
  match fuel with
  | O => (RFuel, s)
  | S fuel' =>
      match queue with
      | [] => (RDone None states, s)
      | nd :: rest =>
          let states := S states in
          if Nat.ltb maxStates states then (RDone None states, s)
          else
            let g := read s (ngrid nd) in
            if allEmpty g then (RDone (Some (nseq nd)) states, s)
            else
              let moves := moves_of rows cols g in
              let '(queue', visited', s') :=
                expand rows cols (ngrid nd) (nseq nd) moves (rest, visited, s) in
              bfs fuel' rows cols maxStates queue' visited' states s'
      end
  end.

(** [findSolutionLimited(startGrid, maxStates)] up to the loop's result. *)
Definition solver_run (s : St) (startGrid : Hd) (maxStates : nat) : run_result * St :=
  match read s startGrid with
  | [] => (RThrow, s)
  | row0 :: _ =>
      let rows := length (read s startGrid) in
      let cols := length row0 in
      let startKey := serializeGrid (read s startGrid) in
      let '(g0, s1) := cloneState s startGrid in
      bfs (S maxStates) rows cols maxStates [mkNode g0 []] [startKey] 0 s1
  end.
End Solver.

Arguments expand {St Hd}.
Arguments bfs {St Hd}.
Arguments solver_run {St Hd}.

(** Value semantics: grids are values, [cloneState] is the identity. *)
Definition pure_read (_ : unit) (g : grid) : grid := g.
Definition pure_clone (s : unit) (g : grid) : grid * unit := (g, s).
Definition pure_removeId (rows cols : nat) (s : unit) (g : grid) (i : nat) : grid * unit :=
  (removeId rows cols g i, s).

Definition solve_run (startGrid : grid) (maxStates : nat) : run_result :=
  fst (solver_run pure_read pure_clone pure_removeId tt startGrid maxStates).

(** The outcome of a JavaScript call: it throws or returns a value. *)
Inductive js (A : Type) := Throw | Ret (a : A).
Arguments Throw {A}.
Arguments Ret {A}.

(** [findSolutionLimited]: [Ret None] is [null], [Ret (Some seq)] a solution. *)
Definition findSolutionLimited (startGrid : grid) (maxStates : nat) : js (option (list move)) :=
  match solve_run startGrid maxStates with
  | RThrow => Throw
  | RDone res _ => Ret res
  | RFuel => Ret None
  end.

(** ** Level generator [generateRandomLevelAsync] *)

(** The random draws for one still-empty cell: [None] when
    [Math.random() >= density], otherwise the drawn direction [dirs[...]] and
    [k = Math.floor(Math.random() * maxLen)], the length being [1 + k].  The
    generator is run on an arbitrary sequence [rnd] of such draws. *)
Definition draw := option (Dir * nat).

(** The [for (let k = 0; k < len; k++)] loop collecting [positions]:
    [None] when a cell is out of bounds or occupied ([ok = false]). *)
Fixpoint positions_from (rows cols : Z) (g : grid) (r c dr dc : Z) (k remaining : nat)
  : option (list (Z * Z)) :=
  match remaining with
  | O => Some []
  | S m =>
      let rr := (r - dr * Z.of_nat k)%Z in
      let cc := (c - dc * Z.of_nat k)%Z in
      if (rr <? 0)%Z || (rr >=? rows)%Z || (cc <? 0)%Z || (cc >=? cols)%Z then None
      else match get_z g rr cc with
           | Some _ => None
           | None => option_map (cons (rr, cc)) (positions_from rows cols g r c dr dc (S k) m)
           end
  end.

(** [g[rr][cc] = { id, dir, len, head: k === 0 }] for each position, in order. *)
Fixpoint place (g : grid) (ps : list (Z * Z)) (k : nat) (mk : nat -> cell) : grid :=
  match ps with
  | [] => g
  | (rr, cc) :: ps' => place (set_cell g (Z.to_nat rr) (Z.to_nat cc) (Some (mk k))) ps' (S k) mk
  end.

(** Generator state: the grid, [idCounter] and the index of the next draw. *)
Definition gen_state := (grid * nat * nat)%type.

(** The body of the inner [for (let c ...)] loop. *)
Definition gen_cell (rows cols : nat) (rnd : nat -> draw) (st : gen_state) (r c : nat) : gen_state :=
  let '(g, idCounter, n) := st in
  match get g r c with
  | Some _ => st
  | None =>
      match rnd n with
      | None => (g, idCounter, S n)
      | Some (d, k) =>
          let len := 1 + k in
          let '(dr, dc) := DIR_VECTORS d in
          match positions_from (Z.of_nat rows) (Z.of_nat cols) g (Z.of_nat r) (Z.of_nat c) dr dc 0 len with
          | None => (g, idCounter, S n)
          | Some ps => (place g ps 0 (fun k => mkCell idCounter d len (Nat.eqb k 0)), S idCounter, S n)
          end
      end
  end.

(** One candidate construction: the row-major scan of a fresh empty grid. *)
Definition build_attempt (rows cols : nat) (rnd : nat -> draw) (idCounter n : nat) : gen_state :=
  fold_left (fun st r => fold_left (fun st c => gen_cell rows cols rnd st r c) (seq 0 cols) st)
    (seq 0 rows) (empty_grid rows cols, idCounter, n).

(** [g.some((row) => row.some(Boolean))] *)
Definition hasArrow (g : grid) : bool :=
  existsb (fun r => existsb (fun c => match c with Some _ => true | None => false end) r) g.

(** [hasArrow && g.some((row, r) => row.some((cell, c) => cell && cell.head && canExit(g, r, c)))] *)
Definition hasImmediateExit (g : grid) : bool :=
  hasArrow g &&
  existsb (fun r =>
    existsb (fun c =>
      match get g r c with Some x => head x && canExit g r c | None => false end)
      (seq 0 (length (nth r g [])))) (seq 0 (length g)).

(** The [for (let attempt ...)] loop: [Some g] when a candidate is accepted.
    (The periodic [await] only yields to the scheduler.) *)
Fixpoint attempts (rows cols : nat) (rnd : nat -> draw) (remaining idCounter n : nat) : option grid :=
  match remaining with
  | O => None
  | S m =>
      let '(g, idCounter', n') := build_attempt rows cols rnd idCounter n in
      if hasArrow g && hasImmediateExit g then
        match findSolutionLimited g 20000 with
        | Ret (Some _) => Some g
        | _ => attempts rows cols rnd m idCounter' n'
        end
      else attempts rows cols rnd m idCounter' n'
  end.

(** The fallback layout. *)
Definition fallback (rows cols : nat) : grid :=
  let f := empty_grid rows cols in
  if Nat.leb 1 rows && Nat.leb 2 cols then
    let f := set_cell f 0 0 (Some (mkCell 1 R 1 true)) in
    if Nat.ltb 1 cols then set_cell f 0 1 (Some (mkCell 1 R 1 false)) else f
  else f.

(** [generateRandomLevelAsync(rows, cols, density, maxLen, maxAttempts)], the
    draws of [Math.random] being [rnd]; [idCounter] starts at 1. *)
Definition generate (rows cols : nat) (rnd : nat -> draw) (maxAttempts : nat) : grid :=
  match attempts rows cols rnd maxAttempts 1 0 with
  | Some g => g
  | None => fallback rows cols
  end.

(** ** Concrete grids *)

Definition piece1R : cell := mkCell 1 R 1 true.

(** A 2x2 grid with one length-1 piece at (0,0) going Right. *)
Definition g_single : grid := set_cell (empty_grid 2 2) 0 0 (Some piece1R).

(** Two length-1 pieces in row 0: (0,0) going Right, (0,1) going Left. *)
Definition two_blocking (rows cols a b : nat) : grid :=
  set_cell (set_cell (empty_grid rows cols) 0 0 (Some (mkCell a R 1 true)))
    0 1 (Some (mkCell b L 1 true)).

(** * Properties *)

(** ** Grid access lemmas *)

Lemma length_list_set {A} (l : list A) n x : length (list_set l n x) = length l.
Proof. revert n; induction l as [|y l IH]; intros [|n]; simpl; auto. Qed.

Lemma nth_list_set_same {A} (l : list A) n x d : n < length l -> nth n (list_set l n x) d = x.
Proof.
  revert n; induction l as [|y l IH]; intros [|n] Hn; simpl in *; try lia; auto.
  apply IH; lia.
Qed.

Lemma nth_list_set_other {A} (l : list A) n m x d : m <> n -> nth m (list_set l n x) d = nth m l d.
Proof.
  revert n m; induction l as [|y l IH]; intros [|n] [|m] Hnm; simpl; auto; try lia.
Qed.

Lemma nth_list_set_default {A} (l : list A) n m x d :
  nth m (list_set l n x) d = if Nat.eqb m n then (if Nat.ltb n (length l) then x else nth m l d)
                             else nth m l d.
Proof.
  destruct (Nat.eqb_spec m n) as [->|Hne].
  - destruct (Nat.ltb_spec n (length l)).
    + now apply nth_list_set_same.
    + rewrite !nth_overflow; auto; rewrite ?length_list_set; lia.
  - now apply nth_list_set_other.
Qed.

Lemma get_set_cell (g : grid) r c v r' c' :
  get (set_cell g r c v) r' c' =
  if Nat.eqb r' r && Nat.eqb c' c && Nat.ltb r (length g) && Nat.ltb c (length (nth r g []))
  then v else get g r' c'.
Proof.
  unfold get, set_cell.
  destruct (Nat.eqb_spec r' r) as [->|Hr]; simpl.
  - destruct (Nat.ltb_spec r (length g)) as [Hl|Hl].
    + rewrite nth_list_set_same by auto.
      rewrite nth_list_set_default.
      destruct (Nat.eqb c' c), (Nat.ltb c (length (nth r g []))); simpl; auto.
    + rewrite (nth_overflow (list_set g r _)) by (rewrite length_list_set; lia).
      rewrite (nth_overflow g) by lia.
      destruct (Nat.eqb c' c); simpl; auto.
  - rewrite nth_list_set_other by auto. reflexivity.
Qed.

Lemma length_set_cell g r c v : length (set_cell g r c v) = length g.
Proof. unfold set_cell; apply length_list_set. Qed.

Lemma length_row_set_cell g r c v i :
  length (nth i (set_cell g r c v) []) = length (nth i g []).
Proof.
  unfold set_cell. rewrite nth_list_set_default.
  destruct (Nat.eqb_spec i r) as [->|]; auto.
  destruct (Nat.ltb r (length g)); auto. apply length_list_set.
Qed.

Lemma get_empty_grid rows cols r c : get (empty_grid rows cols) r c = None.
Proof.
  unfold get, empty_grid.
  destruct (Nat.ltb_spec r rows).
  - rewrite nth_repeat_lt by auto.
    destruct (Nat.ltb_spec c cols).
    + rewrite nth_repeat_lt; auto.
    + apply nth_overflow; rewrite repeat_length; lia.
  - rewrite (@nth_overflow row) by (rewrite repeat_length; lia).
    destruct c; reflexivity.
Qed.

Lemma length_empty_grid rows cols : length (empty_grid rows cols) = rows.
Proof. apply repeat_length. Qed.

Lemma row_empty_grid rows cols i : i < rows -> nth i (empty_grid rows cols) [] = repeat None cols.
Proof. intros; apply nth_repeat_lt; auto. Qed.

Lemma get_z_nat g (r c : nat) : get_z g (Z.of_nat r) (Z.of_nat c) = get g r c.
Proof.
  unfold get_z. rewrite (proj2 (Z.ltb_ge _ _)) by lia. rewrite (proj2 (Z.ltb_ge _ _)) by lia.
  simpl. now rewrite !Nat2Z.id.
Qed.

(** ** The exit walk *)

(** [(rr, cc)] lies inside the [H x W] frame the walk tests. *)
Definition in_frame (H W rr cc : Z) : Prop := (0 <= rr < H /\ 0 <= cc < W)%Z.

(** A visited cell does not block piece [i]: empty, or a segment of [i]. *)
Definition clear_cell (g : grid) (i : nat) (rr cc : Z) : Prop :=
  match get_z g rr cc with None => True | Some y => id y = i end.

Lemma in_frame_bool H W rr cc :
  (0 <=? rr)%Z && (rr <? H)%Z && (0 <=? cc)%Z && (cc <? W)%Z = true <-> in_frame H W rr cc.
Proof.
  unfold in_frame. rewrite !andb_true_iff, !Z.leb_le, !Z.ltb_lt. tauto.
Qed.

Lemma exit_walk_spec g i H W dr dc R0 C0 f k :
  (forall j, k + f <= j -> ~ in_frame H W (R0 + Z.of_nat j * dr) (C0 + Z.of_nat j * dc)) ->
  (forall j j', k <= j <= j' -> ~ in_frame H W (R0 + Z.of_nat j * dr) (C0 + Z.of_nat j * dc) ->
     ~ in_frame H W (R0 + Z.of_nat j' * dr) (C0 + Z.of_nat j' * dc)) ->
  exit_walk g i H W dr dc f (R0 + Z.of_nat k * dr) (C0 + Z.of_nat k * dc) = true <->
  (forall j, k <= j -> in_frame H W (R0 + Z.of_nat j * dr) (C0 + Z.of_nat j * dc) ->
     clear_cell g i (R0 + Z.of_nat j * dr) (C0 + Z.of_nat j * dc)).
Proof.
  revert k; induction f as [|f IH]; intros k Hout Hconv.
  - simpl. split; [|reflexivity]. intros _ j Hj Hin.
    exfalso; apply (Hout j); [lia | exact Hin].
  - simpl.
    destruct ((0 <=? R0 + Z.of_nat k * dr)%Z && (R0 + Z.of_nat k * dr <? H)%Z
              && (0 <=? C0 + Z.of_nat k * dc)%Z && (C0 + Z.of_nat k * dc <? W)%Z) eqn:Hb.
    + apply in_frame_bool in Hb.
      replace (R0 + Z.of_nat k * dr + dr)%Z with (R0 + Z.of_nat (S k) * dr)%Z by lia.
      replace (C0 + Z.of_nat k * dc + dc)%Z with (C0 + Z.of_nat (S k) * dc)%Z by lia.
      assert (IHk := IH (S k) ltac:(intros j Hj; apply Hout; lia)
                                  ltac:(intros j j' Hj; apply Hconv; lia)).
      assert (Hsplit : (forall j, k <= j -> in_frame H W (R0 + Z.of_nat j * dr) (C0 + Z.of_nat j * dc) ->
                         clear_cell g i (R0 + Z.of_nat j * dr) (C0 + Z.of_nat j * dc)) <->
                       clear_cell g i (R0 + Z.of_nat k * dr) (C0 + Z.of_nat k * dc) /\
                       (forall j, S k <= j -> in_frame H W (R0 + Z.of_nat j * dr) (C0 + Z.of_nat j * dc) ->
                         clear_cell g i (R0 + Z.of_nat j * dr) (C0 + Z.of_nat j * dc))).
      { split.
        - intros Hall; split; [apply Hall; auto | intros j Hj; apply Hall; lia].
        - intros [Hk Hall] j Hj Hin. destruct (Nat.eq_dec j k) as [->|]; auto. apply Hall; auto; lia. }
      rewrite Hsplit, <- IHk. unfold clear_cell.
      destruct (get_z g (R0 + Z.of_nat k * dr) (C0 + Z.of_nat k * dc)) as [o|].
      * destruct (Nat.eqb_spec (id o) i); simpl.
        -- tauto.
        -- split; [discriminate | intros [Hc _]; contradiction].
      * tauto.
    + split; [|reflexivity]. intros _ j Hj Hin.
      exfalso. apply (Hconv k j); [lia| |exact Hin].
      intro Hk; apply in_frame_bool in Hk; congruence.
Qed.

(** [canExit] on an in-bounds head walks exactly the cells ahead of it. *)
Lemma canExit_clear_iff (g : grid) (r c : nat) (x : cell) :
  r < length g -> c < length (nth 0 g []) ->
  get g r c = Some x -> head x = true ->
  (canExit g r c = true <->
   forall k : nat, 1 <= k ->
     in_frame (Z.of_nat (length g)) (Z.of_nat (length (nth 0 g [])))
       (Z.of_nat r + Z.of_nat k * fst (DIR_VECTORS (dir x)))
       (Z.of_nat c + Z.of_nat k * snd (DIR_VECTORS (dir x))) ->
     clear_cell g (id x) (Z.of_nat r + Z.of_nat k * fst (DIR_VECTORS (dir x)))
       (Z.of_nat c + Z.of_nat k * snd (DIR_VECTORS (dir x)))).
Proof.
  intros Hr Hc Hget Hhead.
  unfold canExit. rewrite Hget, Hhead. simpl negb. cbv iota.
  destruct (DIR_VECTORS (dir x)) as [dr dc] eqn:Hd. simpl fst; simpl snd.
  assert (Hunit : (dr = 0 /\ (dc = 1 \/ dc = -1) \/ dc = 0 /\ (dr = 1 \/ dr = -1))%Z)
    by (destruct (dir x); simpl in Hd; injection Hd; intros; subst; lia).
  replace (Z.of_nat r + dr)%Z with (Z.of_nat r + Z.of_nat 1 * dr)%Z by lia.
  replace (Z.of_nat c + dc)%Z with (Z.of_nat c + Z.of_nat 1 * dc)%Z by lia.
  apply exit_walk_spec; unfold in_frame.
  - intros j Hj; lia.
  - intros j j' Hj; lia.
Qed.

Lemma allEmpty_spec (g : grid) : allEmpty g = true <-> forall r c, get g r c = None.
Proof.
  unfold allEmpty, get. rewrite forallb_forall. split.
  - intros Hall r c.
    destruct (Nat.ltb_spec r (length g)) as [Hr|Hr].
    + specialize (Hall _ (nth_In g [] Hr)). rewrite forallb_forall in Hall.
      destruct (Nat.ltb_spec c (length (nth r g []))) as [Hc|Hc].
      * specialize (Hall _ (nth_In _ None Hc)).
        destruct (nth c (nth r g []) None); [discriminate|reflexivity].
      * apply nth_overflow; lia.
    + rewrite (@nth_overflow row) by lia. destruct c; reflexivity.
  - intros Hall rw Hin. apply In_nth with (d := []) in Hin as [r [Hr <-]].
    apply forallb_forall. intros o Ho. apply In_nth with (d := None) in Ho as [c [Hc <-]].
    rewrite Hall. reflexivity.
Qed.

Lemma In_moves_of rows cols g r c :
  In (r, c) (moves_of rows cols g) <->
  r < rows /\ c < cols /\ exists x, get g r c = Some x /\ head x && canExit g r c = true.
Proof.
  unfold moves_of. rewrite in_flat_map. split.
  - intros [r' [Hr' Hin]]. apply in_flat_map in Hin as [c' [Hc' Hin]].
    apply in_seq in Hr', Hc'.
    destruct (get g r' c') as [x|] eqn:Hg; [|contradiction].
    destruct (head x && canExit g r' c') eqn:Hb; [|contradiction].
    destruct Hin as [Heq|[]]. injection Heq as <- <-.
    repeat split; try lia. exists x; auto.
  - intros (Hr & Hc & x & Hg & Hb). exists r. split; [apply in_seq; lia|].
    apply in_flat_map. exists c. split; [apply in_seq; lia|].
    rewrite Hg, Hb. left; reflexivity.
Qed.

Lemma moves_of_nil rows cols g :
  (forall r c x, get g r c = Some x -> head x && canExit g r c = false) ->
  moves_of rows cols g = [].
Proof.
  intros Hno. destruct (moves_of rows cols g) as [|[r c] ms] eqn:E; auto.
  assert (Hin : In (r, c) (moves_of rows cols g)) by (rewrite E; left; auto).
  apply In_moves_of in Hin as (_ & _ & x & Hg & Hb). rewrite (Hno _ _ _ Hg) in Hb. discriminate.
Qed.

(** ** C2: exit predicate *)

(** C2: for an in-bounds head cell, [canExit] is true iff every cell strictly
    ahead of the head along its direction, up to the board edge, is empty or
    belongs to the same piece; cells past the edge are not looked at. *)
Theorem canExit_iff_path_clear (g : grid) (r c : nat) (x : cell) :
  r < length g -> c < length (nth 0 g []) ->
  get g r c = Some x -> head x = true ->
  (canExit g r c = true <->
   forall k : nat, 1 <= k ->
     in_frame (Z.of_nat (length g)) (Z.of_nat (length (nth 0 g [])))
       (Z.of_nat r + Z.of_nat k * fst (DIR_VECTORS (dir x)))
       (Z.of_nat c + Z.of_nat k * snd (DIR_VECTORS (dir x))) ->
     clear_cell g (id x) (Z.of_nat r + Z.of_nat k * fst (DIR_VECTORS (dir x)))
       (Z.of_nat c + Z.of_nat k * snd (DIR_VECTORS (dir x)))).
Proof. apply canExit_clear_iff. Qed.

Lemma canExit_iff_path_clear_witness :
  (0 < length g_single /\ 0 < length (nth 0 g_single []) /\
   get g_single 0 0 = Some piece1R /\ head piece1R = true) /\
  (canExit g_single 0 0 = true <->
   forall k : nat, 1 <= k ->
     in_frame (Z.of_nat (length g_single)) (Z.of_nat (length (nth 0 g_single [])))
       (Z.of_nat 0 + Z.of_nat k * fst (DIR_VECTORS (dir piece1R)))
       (Z.of_nat 0 + Z.of_nat k * snd (DIR_VECTORS (dir piece1R))) ->
     clear_cell g_single (id piece1R) (Z.of_nat 0 + Z.of_nat k * fst (DIR_VECTORS (dir piece1R)))
       (Z.of_nat 0 + Z.of_nat k * snd (DIR_VECTORS (dir piece1R)))).
Proof.
  split.
  - repeat split; simpl; try lia; reflexivity.
  - apply (canExit_iff_path_clear g_single 0 0 piece1R); simpl; try lia; reflexivity.
Defined.

(** ** C7: no head, no exit *)

(** C7: at an in-bounds coordinate holding an empty cell or a non-head
    segment, [canExit] returns [false] (a plain result, no exception). *)
Theorem canExit_non_head_false (g : grid) (r c : nat) :
  r < length g -> c < length (nth r g []) ->
  (get g r c = None \/ exists x, get g r c = Some x /\ head x = false) ->
  canExit g r c = false.
Proof.
  intros _ _ [Hg | (x & Hg & Hh)]; unfold canExit; rewrite Hg; [reflexivity|].
  rewrite Hh. reflexivity.
Qed.

Definition body1R : cell := mkCell 1 R 1 false.

Lemma canExit_non_head_false_witness :
  (0 < length (fallback 2 2) /\ 1 < length (nth 0 (fallback 2 2) []) /\
   (get (fallback 2 2) 0 1 = None \/ exists x, get (fallback 2 2) 0 1 = Some x /\ head x = false)) /\
  canExit (fallback 2 2) 0 1 = false.
Proof.
  assert (H : 0 < length (fallback 2 2) /\ 1 < length (nth 0 (fallback 2 2) []) /\
   (get (fallback 2 2) 0 1 = None \/ exists x, get (fallback 2 2) 0 1 = Some x /\ head x = false)).
  { split; [simpl; lia|]. split; [simpl; lia|]. right. exists body1R. split; reflexivity. }
  split; [exact H|].
  destruct H as (H1 & H2 & H3). exact (canExit_non_head_false (fallback 2 2) 0 1 H1 H2 H3).
Defined.

(** ** C8: two heads blocking each other *)

Lemma get_two_blocking rows cols a b r c :
  1 <= rows -> 2 <= cols ->
  get (two_blocking rows cols a b) r c =
  if Nat.eqb r 0 && Nat.eqb c 1 then Some (mkCell b L 1 true)
  else if Nat.eqb r 0 && Nat.eqb c 0 then Some (mkCell a R 1 true)
  else None.
Proof.
  intros Hr Hc. unfold two_blocking.
  rewrite get_set_cell, length_set_cell, length_row_set_cell, get_set_cell, get_empty_grid,
    length_empty_grid, row_empty_grid, repeat_length by lia.
  destruct (Nat.eqb r 0), (Nat.eqb c 1), (Nat.eqb c 0); simpl;
    repeat (rewrite (proj2 (Nat.ltb_lt _ _)) by lia); reflexivity.
Qed.

Lemma two_blocking_dims rows cols a b :
  1 <= rows -> 2 <= cols ->
  length (two_blocking rows cols a b) = rows /\ length (nth 0 (two_blocking rows cols a b) []) = cols.
Proof.
  intros. unfold two_blocking.
  rewrite !length_set_cell, !length_row_set_cell, length_empty_grid, row_empty_grid, repeat_length
    by lia. auto.
Qed.

Lemma two_blocking_heads_stuck rows cols a b :
  1 <= rows -> 2 <= cols -> a <> b ->
  canExit (two_blocking rows cols a b) 0 0 = false /\ canExit (two_blocking rows cols a b) 0 1 = false.
Proof.
  intros Hr Hc Hab. destruct (two_blocking_dims rows cols a b Hr Hc) as [Hl Hw].
  split.
  - destruct (canExit _ 0 0) eqn:E; auto. exfalso.
    assert (Hg : get (two_blocking rows cols a b) 0 0 = Some (mkCell a R 1 true))
      by (rewrite get_two_blocking; auto).
    rewrite (canExit_clear_iff _ 0 0 _ ltac:(rewrite Hl; lia) ltac:(rewrite Hw; lia) Hg eq_refl) in E.
    specialize (E 1 (le_n 1)). simpl in E. rewrite Hl, Hw in E.
    unfold clear_cell, in_frame in E. simpl in E.
    rewrite (get_z_nat _ 0 1), get_two_blocking in E by lia. simpl in E.
    apply Hab; symmetry; apply E; lia.
  - destruct (canExit _ 0 1) eqn:E; auto. exfalso.
    assert (Hg : get (two_blocking rows cols a b) 0 1 = Some (mkCell b L 1 true))
      by (rewrite get_two_blocking; auto).
    rewrite (canExit_clear_iff _ 0 1 _ ltac:(rewrite Hl; lia) ltac:(rewrite Hw; lia) Hg eq_refl) in E.
    specialize (E 1 (le_n 1)). simpl in E. rewrite Hl, Hw in E.
    unfold clear_cell, in_frame in E. simpl in E.
    rewrite (get_z_nat _ 0 0), get_two_blocking in E by lia. simpl in E.
    apply Hab; apply E; lia.
Qed.

(** C8: on a board holding only two length-1 pieces in row 0, at (0,0)
    going Right and at (0,1) going Left, neither head can exit and the
    solver returns [null] (not found), whatever its cap. *)
Theorem two_blocking_unsolvable (rows cols a b maxStates : nat) :
  1 <= rows -> 2 <= cols -> a <> b ->
  canExit (two_blocking rows cols a b) 0 0 = false /\
  canExit (two_blocking rows cols a b) 0 1 = false /\
  findSolutionLimited (two_blocking rows cols a b) maxStates = Ret None.
Proof.
  intros Hr Hc Hab.
  destruct (two_blocking_heads_stuck rows cols a b Hr Hc Hab) as [H00 H01].
  split; [exact H00|]. split; [exact H01|].
  assert (Hget := get_two_blocking rows cols a b).
  assert (Hne : allEmpty (two_blocking rows cols a b) = false).
  { destruct (allEmpty _) eqn:E; auto. apply allEmpty_spec with (r := 0) (c := 0) in E.
    rewrite Hget in E by lia. discriminate. }
  assert (Hmv : forall rs cs, moves_of rs cs (two_blocking rows cols a b) = []).
  { intros rs cs. apply moves_of_nil. intros r c x Hx.
    rewrite Hget in Hx by lia.
    destruct (Nat.eqb_spec r 0), (Nat.eqb_spec c 1), (Nat.eqb_spec c 0); subst; simpl in Hx;
      try discriminate; rewrite ?H00, ?H01; apply andb_false_r. }
  destruct (two_blocking_dims rows cols a b Hr Hc) as [Hl _].
  revert Hne Hmv Hl. generalize (two_blocking rows cols a b) as g. intros g Hne Hmv Hl.
  unfold findSolutionLimited, solve_run, solver_run, pure_read, pure_clone.
  destruct g as [|row0 rest]; [simpl in Hl; lia|].
  destruct maxStates as [|m]; [reflexivity|].
  cbn [bfs ngrid nseq]. rewrite Hne.
  rewrite Hmv. reflexivity.
Qed.

Lemma two_blocking_unsolvable_witness :
  (1 <= 2 /\ 2 <= 2 /\ 1 <> 2) /\
  canExit (two_blocking 2 2 1 2) 0 0 = false /\
  canExit (two_blocking 2 2 1 2) 0 1 = false /\
  findSolutionLimited (two_blocking 2 2 1 2) 20000 = Ret None.
Proof.
  split; [repeat split; lia|].
  apply (two_blocking_unsolvable 2 2 1 2 20000); lia.
Defined.

(** ** C5: the fallback layout *)

Lemma fallback_dims rows cols :
  length (fallback rows cols) = rows /\
  (forall i, i < rows -> length (nth i (fallback rows cols) []) = cols).
Proof.
  unfold fallback.
  destruct (Nat.leb 1 rows && Nat.leb 2 cols); [destruct (Nat.ltb 1 cols)|];
    rewrite ?length_set_cell, length_empty_grid; split; auto; intros i Hi;
    rewrite ?length_row_set_cell, row_empty_grid, repeat_length; auto.
Qed.

(** C5 (amended): when no attempt is accepted, [generate] returns the
    fallback: a [rows x cols] grid which, for at least 1 row and 2 columns,
    holds piece 1 (direction Right, length field 1) with its head at (0,0)
    and its second segment at (0,1), every other cell empty; with no row or
    fewer than 2 columns it is entirely empty. *)
Theorem generate_fallback_layout (rows cols : nat) (rnd : nat -> draw) (maxAttempts : nat) :
  attempts rows cols rnd maxAttempts 1 0 = None ->
  generate rows cols rnd maxAttempts = fallback rows cols /\
  length (fallback rows cols) = rows /\
  (forall i, i < rows -> length (nth i (fallback rows cols) []) = cols) /\
  (forall r c, get (fallback rows cols) r c =
     if Nat.leb 1 rows && Nat.leb 2 cols then
       if Nat.eqb r 0 && Nat.eqb c 0 then Some (mkCell 1 R 1 true)
       else if Nat.eqb r 0 && Nat.eqb c 1 then Some (mkCell 1 R 1 false)
       else None
     else None).
Proof.
  intros Hnone. split; [unfold generate; rewrite Hnone; reflexivity|].
  destruct (fallback_dims rows cols) as [Hl Hw]. split; [exact Hl|]. split; [exact Hw|].
  intros r c. unfold fallback.
  destruct (Nat.leb_spec 1 rows), (Nat.leb_spec 2 cols); simpl; try apply get_empty_grid.
  rewrite (proj2 (Nat.ltb_lt 1 cols)) by lia.
  rewrite !get_set_cell, length_set_cell, length_row_set_cell, length_empty_grid,
    row_empty_grid, repeat_length, get_empty_grid by lia.
  destruct (Nat.eqb_spec r 0), (Nat.eqb_spec c 0), (Nat.eqb_spec c 1); subst; simpl;
    repeat (rewrite (proj2 (Nat.ltb_lt _ _)) by lia); simpl; auto; lia.
Qed.

Definition no_draws : nat -> draw := fun _ => None.

Lemma generate_fallback_layout_witness :
  attempts 2 2 no_draws 3 1 0 = None /\
  (generate 2 2 no_draws 3 = fallback 2 2 /\
   length (fallback 2 2) = 2 /\
   (forall i, i < 2 -> length (nth i (fallback 2 2) []) = 2) /\
   (forall r c, get (fallback 2 2) r c =
      if Nat.leb 1 2 && Nat.leb 2 2 then
        if Nat.eqb r 0 && Nat.eqb c 0 then Some (mkCell 1 R 1 true)
        else if Nat.eqb r 0 && Nat.eqb c 1 then Some (mkCell 1 R 1 false)
        else None
      else None)).
Proof.
  assert (H : attempts 2 2 no_draws 3 1 0 = None) by (vm_compute; reflexivity).
  split; [exact H|]. exact (generate_fallback_layout 2 2 no_draws 3 H).
Defined.

(** C5 fails for one column: every attempt on a 1x1 board is rejected and the
    fallback is the all-empty board, not a lone single-cell piece. *)
Lemma generate_one_column_fallback_empty :
  attempts 1 1 no_draws 5 1 0 = None /\
  generate 1 1 no_draws 5 = [[None]] /\
  ~ (exists x, get (generate 1 1 no_draws 5) 0 0 = Some x).
Proof.
  assert (H : generate 1 1 no_draws 5 = [[None]]) by (vm_compute; reflexivity).
  split; [vm_compute; reflexivity|]. split; [exact H|].
  rewrite H. intros [x Hx]. discriminate.
Qed.

(** ** C6: the state key *)

(** [a] does not occur in [s]. *)
Fixpoint char_free (a : ascii) (s : string) : bool :=
  match s with
  | EmptyString => true
  | String b s' => negb (Ascii.eqb a b) && char_free a s'
  end.

Lemma char_free_app a s t : char_free a (s ++ t) = char_free a s && char_free a t.
Proof. induction s as [|b s IH]; simpl; auto. rewrite IH, andb_assoc; reflexivity. Qed.

Lemma split_at_sep a s1 t1 s2 t2 :
  char_free a s1 = true -> char_free a s2 = true ->
  (s1 ++ String a t1 = s2 ++ String a t2)%string -> s1 = s2 /\ t1 = t2.
Proof.
  revert s2; induction s1 as [|b s1 IH]; intros [|b2 s2] H1 H2 E; simpl in *.
  - injection E; auto.
  - injection E as <- _. rewrite Ascii.eqb_refl in H2. discriminate.
  - injection E as -> _. rewrite Ascii.eqb_refl in H1. discriminate.
  - injection E as <- E. apply andb_true_iff in H1 as [_ H1]. apply andb_true_iff in H2 as [_ H2].
    destruct (IH s2 H1 H2 E) as [-> ->]. auto.
Qed.

Lemma join_inj a (l1 l2 : list string) :
  length l1 = length l2 -> Forall (fun s => char_free a s = true) l1 ->
  Forall (fun s => char_free a s = true) l2 ->
  String.concat (String a EmptyString) l1 = String.concat (String a EmptyString) l2 -> l1 = l2.
Proof.
  revert l2; induction l1 as [|x l1 IH]; intros [|y l2] Hlen F1 F2 E; simpl in Hlen; try lia; auto.
  inversion F1 as [|? ? Fx F1']; inversion F2 as [|? ? Fy F2']; subst.
  destruct l1 as [|x' l1], l2 as [|y' l2]; simpl in Hlen; try lia.
  - simpl in E. now subst.
  - simpl in E. destruct (split_at_sep a x _ y _ Fx Fy E) as [-> Hr].
    f_equal. apply IH; auto.
Qed.

Lemma char_free_join a b l :
  Ascii.eqb a b = false -> Forall (fun s => char_free a s = true) l ->
  char_free a (String.concat (String b EmptyString) l) = true.
Proof.
  intros Hab F. induction F as [|x l Hx F IH]; [reflexivity|].
  destruct l as [|y l]; [exact Hx|].
  change (String.concat (String b EmptyString) (x :: y :: l)) with
    (x ++ String b EmptyString ++ String.concat (String b EmptyString) (y :: l))%string.
  rewrite !char_free_app, Hx, IH. simpl. rewrite Hab. reflexivity.
Qed.

Lemma digits_char_free a d :
  Ascii.eqb a "," = true \/ Ascii.eqb a ";" = true -> char_free a (string_of_uint d) = true.
Proof.
  intros Ha. assert (Ha' : a = ","%char \/ a = ";"%char)
    by (destruct Ha as [Ha|Ha]; apply Ascii.eqb_eq in Ha; auto).
  induction d; simpl; auto; destruct Ha' as [-> | ->]; simpl; auto.
Qed.

Lemma string_of_uint_inj d1 d2 : string_of_uint d1 = string_of_uint d2 -> d1 = d2.
Proof.
  revert d2; induction d1; intros [] E; simpl in E; try discriminate; auto;
    injection E as E; f_equal; auto.
Qed.

Lemma string_of_nat_inj n m : string_of_nat n = string_of_nat m -> n = m.
Proof.
  intros E. apply DecimalNat.Unsigned.to_uint_inj, string_of_uint_inj, E.
Qed.

Lemma map_inj {A B} (f : A -> B) (l1 l2 : list A) :
  (forall x y, f x = f y -> x = y) -> map f l1 = map f l2 -> l1 = l2.
Proof.
  intros Hf. revert l2; induction l1 as [|x l1 IH]; intros [|y l2] E; simpl in E;
    try discriminate; auto.
  injection E as Exy E. f_equal; auto.
Qed.

Definition row_key (r : row) : string :=
  String.concat "," (map (fun c => string_of_nat (cell_id c)) r).

Lemma serializeGrid_rows g : serializeGrid g = String.concat ";" (map row_key g).
Proof. reflexivity. Qed.

Lemma row_key_char_free r : char_free ";" (row_key r) = true.
Proof.
  apply char_free_join; [reflexivity|]. apply Forall_forall. intros s Hs.
  apply in_map_iff in Hs as [c [<- _]]. apply digits_char_free. right; reflexivity.
Qed.

Lemma row_key_inj r1 r2 : length r1 = length r2 -> row_key r1 = row_key r2 ->
  map cell_id r1 = map cell_id r2.
Proof.
  intros Hl E. unfold row_key in E. apply join_inj in E.
  - rewrite <- (map_map cell_id string_of_nat r1), <- (map_map cell_id string_of_nat r2) in E.
    apply map_inj in E; auto. apply string_of_nat_inj.
  - rewrite !length_map; auto.
  - apply Forall_forall; intros s Hs; apply in_map_iff in Hs as [c [<- _]].
    apply digits_char_free; left; reflexivity.
  - apply Forall_forall; intros s Hs; apply in_map_iff in Hs as [c [<- _]].
    apply digits_char_free; left; reflexivity.
Qed.

(** Same dimensions, row by row. *)
Definition same_shape (g1 g2 : grid) : Prop :=
  length g1 = length g2 /\ forall r, length (nth r g1 []) = length (nth r g2 []).

Lemma ids_pointwise (g1 g2 : grid) :
  same_shape g1 g2 ->
  (map (map cell_id) g1 = map (map cell_id) g2 <->
   forall r c, cell_id (get g1 r c) = cell_id (get g2 r c)).
Proof.
  intros [Hl Hw]. unfold get. split.
  - intros E r c.
    assert (Er : map cell_id (nth r g1 []) = map cell_id (nth r g2 [])).
    { rewrite <- (map_nth (map cell_id) g1 [] r), <- (map_nth (map cell_id) g2 [] r), E. reflexivity. }
    change 0 with (cell_id None).
    rewrite <- (map_nth cell_id (nth r g1 []) None c), <- (map_nth cell_id (nth r g2 []) None c), Er.
    reflexivity.
  - intros P. apply nth_ext with (d := []) (d' := []); rewrite ?length_map; auto.
    intros r Hr. rewrite ?length_map in Hr.
    rewrite (nth_indep _ [] (map cell_id [])) by (rewrite length_map; lia).
    rewrite (nth_indep (map (map cell_id) g2) [] (map cell_id [])) by (rewrite length_map; lia).
    rewrite !map_nth.
    apply nth_ext with (d := 0) (d' := 0); rewrite ?length_map; auto.
    intros c Hc. rewrite ?length_map in Hc.
    change 0 with (cell_id None). rewrite !map_nth. apply P.
Qed.

Lemma serializeGrid_ids g : serializeGrid g =
  String.concat ";" (map (fun r => String.concat "," (map string_of_nat r)) (map (map cell_id) g)).
Proof.
  unfold serializeGrid. rewrite map_map. f_equal. apply map_ext. intros r. rewrite map_map. reflexivity.
Qed.

(** C6: for two grids of the same dimensions, [serializeGrid] gives the same
    key iff every cell holds the same piece id (0 for empty); direction,
    length and head flag play no part. *)
Theorem serializeGrid_key_iff (g1 g2 : grid) :
  same_shape g1 g2 ->
  (serializeGrid g1 = serializeGrid g2 <->
   forall r c, cell_id (get g1 r c) = cell_id (get g2 r c)).
Proof.
  intros Hs. rewrite <- ids_pointwise by exact Hs. split.
  - intros E. destruct Hs as [Hl Hw].
    rewrite !serializeGrid_rows in E. apply join_inj in E.
    + apply nth_ext with (d := []) (d' := []); rewrite ?length_map; auto.
      intros r Hr. rewrite ?length_map in Hr.
      assert (Er : nth r (map row_key g1) "" = nth r (map row_key g2) "") by (rewrite E; auto).
      rewrite (nth_indep _ [] (map cell_id [])) by (rewrite length_map; lia).
      rewrite (nth_indep (map (map cell_id) g2) [] (map cell_id [])) by (rewrite length_map; lia).
      rewrite !map_nth. apply row_key_inj; auto.
      rewrite (nth_indep _ "" (row_key [])) in Er by (rewrite length_map; lia).
      rewrite (nth_indep (map row_key g2) "" (row_key [])) in Er by (rewrite length_map; lia).
      rewrite !map_nth in Er. exact Er.
    + rewrite !length_map; auto.
    + apply Forall_forall; intros s Hs; apply in_map_iff in Hs as [r [<- _]]; apply row_key_char_free.
    + apply Forall_forall; intros s Hs; apply in_map_iff in Hs as [r [<- _]]; apply row_key_char_free.
  - intros E. rewrite !serializeGrid_ids, E. reflexivity.
Qed.

Definition g_single_moved : grid := set_cell (empty_grid 2 2) 0 0 (Some (mkCell 1 D 2 false)).

Lemma serializeGrid_key_iff_witness :
  same_shape g_single g_single_moved /\
  (serializeGrid g_single = serializeGrid g_single_moved <->
   forall r c, cell_id (get g_single r c) = cell_id (get g_single_moved r c)).
Proof.
  assert (H : same_shape g_single g_single_moved).
  { split; [reflexivity|]. intros [|[|r]]; reflexivity. }
  split; [exact H|]. exact (serializeGrid_key_iff _ _ H).
Defined.

(** ** C4: the solver's loop is bounded by its state counter *)

Section SolverBound.
Variables (St Hd : Type) (read : St -> Hd -> grid) (cloneState : St -> Hd -> Hd * St)
          (removeIdS : nat -> nat -> St -> Hd -> nat -> Hd * St).

Lemma bfs_bounded rows cols maxStates :
  forall fuel queue visited states s,
    states <= maxStates -> states + fuel = S maxStates ->
    exists res n s', bfs read removeIdS fuel rows cols maxStates queue visited states s = (RDone res n, s')
                     /\ n <= S maxStates /\ (maxStates < n -> res = None).
Proof.
  induction fuel as [|fuel IH]; intros queue visited states s Hle Hsum; [lia|].
  simpl. destruct queue as [|nd rest].
  - exists None, states, s. repeat split; auto; lia.
  - destruct (Nat.ltb_spec maxStates (S states)).
    + exists None, (S states), s. repeat split; auto; lia.
    + destruct (allEmpty (read s (ngrid nd))).
      * exists (Some (nseq nd)), (S states), s. repeat split; auto; lia.
      * destruct (expand read removeIdS rows cols (ngrid nd) (nseq nd)
                    (moves_of rows cols (read s (ngrid nd))) (rest, visited, s))
          as [[q' vis'] s'].
        apply IH; lia.
Qed.

Lemma solver_run_bounded s startGrid maxStates :
  (read s startGrid = [] /\ fst (solver_run read cloneState removeIdS s startGrid maxStates) = RThrow) \/
  (exists res n, fst (solver_run read cloneState removeIdS s startGrid maxStates) = RDone res n
                 /\ n <= S maxStates /\ (maxStates < n -> res = None)).
Proof.
  unfold solver_run. destruct (read s startGrid) as [|row0 rest]; [left; auto|right].
  destruct (cloneState s startGrid) as [g0 s1].
  destruct (bfs_bounded (length (row0 :: rest)) (length row0) maxStates (S maxStates)
              [mkNode g0 []] [serializeGrid (row0 :: rest)] 0 s1 ltac:(lia) ltac:(lia))
    as (res & n & s' & E & Hn & Hres).
  rewrite E. exists res, n. auto.
Qed.
End SolverBound.

(** C4: [findSolutionLimited] always finishes: on a grid with at least one row
    its loop stops after [n <= maxStates + 1] dequeued nodes ([n] is the final
    value of [states]), with [null] whenever [states] went past [maxStates];
    a grid with no row (outside the rows x cols grids of the game) makes
    [startGrid[0].length] throw before any search. *)
Theorem solver_terminates (startGrid : grid) (maxStates : nat) :
  (startGrid = [] /\ solve_run startGrid maxStates = RThrow) \/
  (exists res n, solve_run startGrid maxStates = RDone res n
                 /\ n <= S maxStates /\ (maxStates < n -> res = None)).
Proof. apply (solver_run_bounded unit grid pure_read pure_clone pure_removeId tt). Qed.

(** ** Removal of a piece *)

(** Does the cell hold a segment of piece [i]? *)
Definition hit (i : nat) (o : option cell) : bool :=
  match o with Some x => Nat.eqb (id x) i | None => false end.

Lemma get_some_range g r c x : get g r c = Some x -> r < length g /\ c < length (nth r g []).
Proof.
  unfold get. intros E. split.
  - destruct (Nat.ltb_spec r (length g)); auto.
    rewrite (@nth_overflow row) in E by lia. destruct c; discriminate.
  - destruct (Nat.ltb_spec c (length (nth r g []))); auto.
    rewrite nth_overflow in E by lia. discriminate.
Qed.

Lemma get_rm_step g r0 c0 i r c :
  get (match get g r0 c0 with
       | Some x => if Nat.eqb (id x) i then set_cell g r0 c0 None else g
       | None => g end) r c =
  if Nat.eqb r r0 && Nat.eqb c c0 && hit i (get g r c) then None else get g r c.
Proof.
  destruct (get g r0 c0) as [x|] eqn:E.
  - destruct (Nat.eqb_spec (id x) i) as [Hi|Hi].
    + destruct (get_some_range _ _ _ _ E) as [Hr Hc].
      rewrite get_set_cell, (proj2 (Nat.ltb_lt _ _) Hr), (proj2 (Nat.ltb_lt _ _) Hc), !andb_true_r.
      destruct (Nat.eqb_spec r r0), (Nat.eqb_spec c c0); subst; simpl; auto.
      rewrite E. simpl. rewrite Nat.eqb_refl. reflexivity.
    + destruct (Nat.eqb_spec r r0), (Nat.eqb_spec c c0); subst; simpl; auto.
      rewrite E. simpl. rewrite (proj2 (Nat.eqb_neq _ _) Hi). reflexivity.
  - destruct (Nat.eqb_spec r r0), (Nat.eqb_spec c c0); subst; simpl; auto.
    rewrite E. reflexivity.
Qed.

Lemma shape_rm_step g r0 c0 i :
  let g' := match get g r0 c0 with
            | Some x => if Nat.eqb (id x) i then set_cell g r0 c0 None else g
            | None => g end in
  length g' = length g /\ forall k, length (nth k g' []) = length (nth k g []).
Proof.
  simpl. destruct (get g r0 c0) as [x|]; [destruct (Nat.eqb (id x) i)|]; split; auto.
  - apply length_set_cell.
  - intros; apply length_row_set_cell.
Qed.

Lemma get_removeId_cols r0 i cols : forall g r c,
  get (fold_left (fun g c =>
         match get g r0 c with
         | Some x => if Nat.eqb (id x) i then set_cell g r0 c None else g
         | None => g end) cols g) r c =
  if Nat.eqb r r0 && existsb (Nat.eqb c) cols && hit i (get g r c) then None else get g r c.
Proof.
  induction cols as [|c0 cols IH]; intros g r c; simpl.
  - rewrite andb_false_r. reflexivity.
  - rewrite IH, get_rm_step. destruct (hit i (get g r c)) eqn:Hh;
    destruct (Nat.eqb r r0), (Nat.eqb c c0), (existsb (Nat.eqb c) cols); simpl; rewrite ?Hh; auto.
Qed.

Lemma get_removeId_rows i cols rs : forall g r c,
  get (fold_left (fun g r =>
    fold_left (fun g c =>
      match get g r c with
      | Some x => if Nat.eqb (id x) i then set_cell g r c None else g
      | None => g
      end) cols g) rs g) r c =
  if existsb (Nat.eqb r) rs && existsb (Nat.eqb c) cols && hit i (get g r c) then None else get g r c.
Proof.
  induction rs as [|r0 rs IH]; intros g r c; simpl; auto.
  rewrite IH, get_removeId_cols. destruct (hit i (get g r c)) eqn:Hh;
  destruct (Nat.eqb r r0), (existsb (Nat.eqb c) cols), (existsb (Nat.eqb r) rs); simpl; rewrite ?Hh; auto.
Qed.

Lemma existsb_seq0 k n : existsb (Nat.eqb k) (seq 0 n) = Nat.ltb k n.
Proof.
  apply eq_true_iff_eq. rewrite existsb_exists, Nat.ltb_lt. split.
  - intros [j [Hj E]]. apply in_seq in Hj. apply Nat.eqb_eq in E. lia.
  - intros Hk. exists k. split; [apply in_seq; lia | apply Nat.eqb_refl].
Qed.

Lemma get_removeId rows cols g i r c :
  get (removeId rows cols g i) r c =
  if Nat.ltb r rows && Nat.ltb c cols && hit i (get g r c) then None else get g r c.
Proof. unfold removeId. rewrite get_removeId_rows, !existsb_seq0. reflexivity. Qed.

Lemma shape_removeId rows cols g i : same_shape (removeId rows cols g i) g.
Proof.
  unfold removeId, same_shape.
  generalize (seq 0 rows) as rs. intros rs. revert g.
  induction rs as [|r0 rs IH]; intros g; simpl; [split; auto|].
  destruct (IH (fold_left (fun g c =>
         match get g r0 c with
         | Some x => if Nat.eqb (id x) i then set_cell g r0 c None else g
         | None => g end) (seq 0 cols) g)) as [H1 H2].
  assert (Hc : forall cs g', length (fold_left (fun g c =>
         match get g r0 c with
         | Some x => if Nat.eqb (id x) i then set_cell g r0 c None else g
         | None => g end) cs g') = length g' /\
         forall k, length (nth k (fold_left (fun g c =>
         match get g r0 c with
         | Some x => if Nat.eqb (id x) i then set_cell g r0 c None else g
         | None => g end) cs g') []) = length (nth k g' [])).
  { induction cs as [|c0 cs IHc]; intros g'; simpl; [split; auto|].
    destruct (IHc (match get g' r0 c0 with
         | Some x => if Nat.eqb (id x) i then set_cell g' r0 c0 None else g'
         | None => g' end)) as [A B].
    destruct (shape_rm_step g' r0 c0 i) as [A' B']. simpl in A', B'.
    split; [rewrite A; exact A'| intros k; rewrite B; apply B']. }
  destruct (Hc (seq 0 cols) g) as [A B].
  split; [rewrite H1; exact A | intros k; rewrite H2; apply B].
Qed.

Lemma same_shape_trans g1 g2 g3 : same_shape g1 g2 -> same_shape g2 g3 -> same_shape g1 g3.
Proof. intros [A B] [C D]; split; [congruence | intros k; rewrite B; apply D]. Qed.

Lemma same_shape_sym g1 g2 : same_shape g1 g2 -> same_shape g2 g1.
Proof. intros [A B]; split; auto. Qed.

Lemma grid_ext g1 g2 : same_shape g1 g2 -> (forall r c, get g1 r c = get g2 r c) -> g1 = g2.
Proof.
  intros [Hl Hw] E. apply nth_ext with (d := []) (d' := []); auto.
  intros r Hr. apply nth_ext with (d := None) (d' := None); auto.
  intros c Hc. apply E.
Qed.

(** Removal as the claims word it: every cell holding piece [i] becomes empty. *)
Definition removeAll (g : grid) (i : nat) : grid :=
  map (map (fun o => if hit i o then None else o)) g.

Lemma nth_map_row (h : option cell -> option cell) (l : row) c :
  h None = None -> nth c (map h l) None = h (nth c l None).
Proof. intros Hn. revert c; induction l; intros [|c]; simpl; auto. Qed.

Lemma nth_map_grid (h : row -> row) (g : grid) r :
  h [] = [] -> nth r (map h g) [] = h (nth r g []).
Proof. intros Hn. revert r; induction g; intros [|r]; simpl; auto. Qed.

Lemma get_removeAll g i r c : get (removeAll g i) r c = if hit i (get g r c) then None else get g r c.
Proof.
  unfold removeAll, get. rewrite nth_map_grid, nth_map_row; reflexivity.
Qed.

Lemma shape_removeAll g i : same_shape (removeAll g i) g.
Proof.
  unfold removeAll. split; [apply length_map|].
  intros k. rewrite nth_map_grid by reflexivity. apply length_map.
Qed.

(** ** Replaying a move sequence *)

(** Apply the moves in order with the removal [rm]: each move must be a head
    whose [canExit] holds on the grid just before it; the whole piece found
    at the move's cell is then removed.  [None] when a move is not allowed. *)
Fixpoint replay (rm : grid -> nat -> grid) (g : grid) (ms : list move) : option grid :=
  match ms with
  | [] => Some g
  | (r, c) :: ms' =>
      if canExit g r c then
        match get g r c with
        | Some x => replay rm (rm g (id x)) ms'
        | None => None
        end
      else None
  end.

Lemma replay_app rm g s1 s2 :
  replay rm g (s1 ++ s2) = match replay rm g s1 with Some g' => replay rm g' s2 | None => None end.
Proof.
  revert g; induction s1 as [|[r c] s1 IH]; intros g; simpl; auto.
  destruct (canExit g r c); auto. destruct (get g r c); auto.
Qed.

Lemma expand_pure_nodes rows cols g sq moves :
  forall q vis nd,
    In nd (fst (fst (expand pure_read pure_removeId rows cols g sq moves (q, vis, tt)))) ->
    In nd q \/ exists r c x, In (r, c) moves /\ get g r c = Some x /\
                             nd = mkNode (removeId rows cols g (id x)) (sq ++ [(r, c)]).
Proof.
  induction moves as [|[r0 c0] ms IH]; intros q vis nd Hin; [left; exact Hin|].
  unfold expand in Hin. simpl in Hin. unfold pure_read in Hin.
  destruct (get g r0 c0) as [x|] eqn:E.
  - destruct (has vis (serializeGrid (removeId rows cols g (id x)))).
    + destruct (IH q vis nd Hin) as [H|(r & c & y & Hm & Hg & ->)]; [left; auto|].
      right. exists r, c, y. split; [right; exact Hm | auto].
    + destruct (IH _ _ nd Hin) as [H|(r & c & y & Hm & Hg & ->)].
      * apply in_app_or in H as [H|[H|[]]]; [left; auto|].
        right. exists r0, c0, x. split; [left; reflexivity | split; auto].
      * right. exists r, c, y. split; [right; exact Hm | auto].
  - destruct (IH q vis nd Hin) as [H|(r & c & y & Hm & Hg & ->)]; [left; auto|].
    right. exists r, c, y. split; [right; exact Hm | auto].
Qed.

(** Whatever the pure solver returns comes from a queue node that satisfies
    any property holding of the start node and carried along every move. *)
Lemma bfs_pure_found (P : node grid -> Prop) rows cols maxStates :
  (forall nd r c x, P nd -> In (r, c) (moves_of rows cols (ngrid nd)) -> get (ngrid nd) r c = Some x ->
     P (mkNode (removeId rows cols (ngrid nd) (id x)) (nseq nd ++ [(r, c)]))) ->
  forall fuel queue visited states ms n,
    (forall nd, In nd queue -> P nd) ->
    fst (bfs pure_read pure_removeId fuel rows cols maxStates queue visited states tt) = RDone (Some ms) n ->
    exists nd, P nd /\ nseq nd = ms /\ allEmpty (ngrid nd) = true.
Proof.
  intros HP. induction fuel as [|fuel IH]; intros queue visited states ms n HQ E; [discriminate|].
  simpl in E. destruct queue as [|nd rest]; [discriminate|].
  destruct (Nat.ltb maxStates (S states)); [discriminate|].
  unfold pure_read in E at 1. destruct (allEmpty (ngrid nd)) eqn:He.
  - injection E as <- _. exists nd. split; [apply HQ; left; auto|auto].
  - destruct (expand pure_read pure_removeId rows cols (ngrid nd) (nseq nd)
                (moves_of rows cols (pure_read tt (ngrid nd))) (rest, visited, tt))
      as [[q' vis'] s'] eqn:Ex.
    destruct s'. apply (IH q' vis' (S states) ms n); auto.
    intros nd' Hin.
    assert (Hin' : In nd' (fst (fst (expand pure_read pure_removeId rows cols (ngrid nd) (nseq nd)
                     (moves_of rows cols (pure_read tt (ngrid nd))) (rest, visited, tt)))))
      by (rewrite Ex; exact Hin).
    apply expand_pure_nodes in Hin' as [H|(r & c & x & Hm & Hg & ->)].
    + apply HQ; right; auto.
    + apply HP; auto. apply HQ; left; auto.
Qed.

Lemma solve_replay_box (g : grid) (maxStates : nat) (ms : list move) :
  findSolutionLimited g maxStates = Ret (Some ms) ->
  exists g', replay (removeId (length g) (length (nth 0 g []))) g ms = Some g' /\ allEmpty g' = true.
Proof.
  unfold findSolutionLimited, solve_run.
  destruct g as [|row0 rest]; [discriminate|].
  change (solver_run pure_read pure_clone pure_removeId tt (row0 :: rest) maxStates) with
    (bfs pure_read pure_removeId (S maxStates) (length (row0 :: rest)) (length row0) maxStates
       [mkNode (row0 :: rest) []] [serializeGrid (row0 :: rest)] 0 tt).
  destruct (fst (bfs pure_read pure_removeId (S maxStates) (length (row0 :: rest)) (length row0) maxStates
                  [mkNode (row0 :: rest) []] [serializeGrid (row0 :: rest)] 0 tt)) as [| |res n] eqn:E;
    try discriminate.
  intros Hr; injection Hr as ->.
  set (P := fun nd : node grid =>
              replay (removeId (length (row0 :: rest)) (length row0)) (row0 :: rest) (nseq nd) = Some (ngrid nd)).
  assert (HP : forall nd r c x, P nd -> In (r, c) (moves_of (length (row0 :: rest)) (length row0) (ngrid nd)) ->
                 get (ngrid nd) r c = Some x ->
                 P (mkNode (removeId (length (row0 :: rest)) (length row0) (ngrid nd) (id x)) (nseq nd ++ [(r, c)]))).
  { intros nd r c x Hnd Hm Hx. unfold P in *. cbn [ngrid nseq].
    rewrite replay_app, Hnd. simpl.
    apply In_moves_of in Hm as (_ & _ & y & Hy & Hb). rewrite Hx in Hy. injection Hy as <-.
    apply andb_true_iff in Hb as [_ Hb]. rewrite Hb, Hx. reflexivity. }
  assert (HQ : forall nd, In nd [mkNode (row0 :: rest) []] -> P nd) by (intros nd [<-|[]]; reflexivity).
  destruct (bfs_pure_found P _ _ _ HP _ _ _ _ _ _ HQ E) as (nd & Hnd & <- & He).
  exists (ngrid nd). split; auto.
Qed.

Lemma replay_outside rows cols g ms g' :
  replay (removeId rows cols) g ms = Some g' ->
  forall r c, ~ (r < rows /\ c < cols) -> get g' r c = get g r c.
Proof.
  revert g; induction ms as [|[r0 c0] ms IH]; intros g E r c Hout; simpl in E.
  - injection E as <-; reflexivity.
  - destruct (canExit g r0 c0); [|discriminate].
    destruct (get g r0 c0) as [x|]; [|discriminate].
    rewrite (IH _ E r c Hout), get_removeId.
    destruct (Nat.ltb_spec r rows), (Nat.ltb_spec c cols); simpl; auto. lia.
Qed.

Lemma replay_box_full rows cols g ms g' :
  replay (removeId rows cols) g ms = Some g' -> allEmpty g' = true ->
  replay removeAll g ms = Some g'.
Proof.
  revert g; induction ms as [|[r0 c0] ms IH]; intros g E Hemp; simpl in *; auto.
  destruct (canExit g r0 c0); [|discriminate].
  destruct (get g r0 c0) as [x|]; [|discriminate].
  rewrite <- (IH _ E Hemp). f_equal.
  apply grid_ext.
  - apply same_shape_trans with g; [apply shape_removeAll | apply same_shape_sym, shape_removeId].
  - intros r c. rewrite get_removeAll, get_removeId.
    destruct (Nat.ltb_spec r rows), (Nat.ltb_spec c cols); simpl; auto.
    all: assert (Hg : get g r c = None) by
      (transitivity (get (removeId rows cols g (id x)) r c);
       [rewrite get_removeId; destruct (Nat.ltb_spec r rows), (Nat.ltb_spec c cols);
        simpl; try reflexivity; lia
       |rewrite <- (replay_outside _ _ _ _ _ E r c) by lia; apply allEmpty_spec; exact Hemp]).
    all: rewrite Hg; reflexivity.
Qed.

Lemma solve_sound_core (g : grid) (maxStates : nat) (ms : list move) :
  findSolutionLimited g maxStates = Ret (Some ms) ->
  exists g', replay removeAll g ms = Some g' /\ allEmpty g' = true.
Proof.
  intros Hs. destruct (solve_replay_box g maxStates ms Hs) as (g' & E & He).
  exists g'. split; auto. apply (replay_box_full _ _ _ _ _ E He).
Qed.

(** ** C1: solver soundness *)

(** C1: if [findSolutionLimited] returns a move sequence, replaying it on the
    start grid (each move's head passing [canExit] on the grid just before
    it, and every cell of that piece being cleared) ends on an all-empty grid. *)
Theorem solve_sound (g : grid) (maxStates : nat) (ms : list move) :
  findSolutionLimited g maxStates = Ret (Some ms) ->
  exists g', replay removeAll g ms = Some g' /\ allEmpty g' = true.
Proof. apply solve_sound_core. Qed.

Lemma solve_sound_witness :
  findSolutionLimited g_single 10 = Ret (Some [(0, 0)]) /\
  exists g', replay removeAll g_single [(0, 0)] = Some g' /\ allEmpty g' = true.
Proof.
  assert (H : findSolutionLimited g_single 10 = Ret (Some [(0, 0)])) by (vm_compute; reflexivity).
  split; [exact H|]. exact (solve_sound g_single 10 [(0, 0)] H).
Defined.

(** ** C10: a solution removes each piece exactly once *)

(** The piece ids of all occupied cells, row-major, with repetitions. *)
Definition cell_ids (g : grid) : list nat :=
  flat_map (fun rw => flat_map (fun o => match o with Some x => [id x] | None => [] end) rw) g.

(** The distinct piece ids present in the grid. *)
Definition grid_ids (g : grid) : list nat := nodup Nat.eq_dec (cell_ids g).

(** The ids of the pieces the moves remove, in order (whole-piece removal). *)
Fixpoint removed_ids (g : grid) (ms : list move) : list nat :=
  match ms with
  | [] => []
  | (r, c) :: ms' =>
      match get g r c with
      | Some x => id x :: removed_ids (removeAll g (id x)) ms'
      | None => []
      end
  end.

Lemma In_cell_ids i g :
  In i (cell_ids g) <-> exists rw x, In rw g /\ In (Some x) rw /\ id x = i.
Proof.
  unfold cell_ids. rewrite in_flat_map. split.
  - intros [rw [Hrw Hin]]. apply in_flat_map in Hin as [[x|] [Ho Hi]]; [|contradiction].
    destruct Hi as [<-|[]]. exists rw, x. auto.
  - intros (rw & x & Hrw & Hx & <-). exists rw. split; auto.
    apply in_flat_map. exists (Some x). split; [auto | left; auto].
Qed.

Lemma get_In_cell_ids g r c x : get g r c = Some x -> In (id x) (cell_ids g).
Proof.
  intros E. destruct (get_some_range _ _ _ _ E) as [Hr Hc].
  apply In_cell_ids. exists (nth r g []), x. split; [apply nth_In; auto|]. split; auto.
  unfold get in E. rewrite <- E. apply nth_In; auto.
Qed.

Lemma cell_ids_removeAll i j g : In i (cell_ids (removeAll g j)) <-> In i (cell_ids g) /\ i <> j.
Proof.
  rewrite !In_cell_ids. unfold removeAll. split.
  - intros (rw & x & Hrw & Hx & <-). apply in_map_iff in Hrw as [rw0 [<- Hrw0]].
    apply in_map_iff in Hx as [o [Ho Hin]].
    destruct (hit j o) eqn:Hh; [discriminate|]. subst o.
    split; [exists rw0, x; auto|]. simpl in Hh. apply Nat.eqb_neq in Hh. auto.
  - intros [(rw & x & Hrw & Hx & <-) Hne]. exists (map (fun o => if hit j o then None else o) rw), x.
    split; [apply in_map; auto|]. split; auto.
    apply in_map_iff. exists (Some x). split; auto. simpl.
    rewrite (proj2 (Nat.eqb_neq _ _) Hne). reflexivity.
Qed.

Lemma allEmpty_cell_ids g i : allEmpty g = true -> ~ In i (cell_ids g).
Proof.
  intros He Hin. apply In_cell_ids in Hin as (rw & x & Hrw & Hx & _).
  unfold allEmpty in He. rewrite forallb_forall in He. specialize (He _ Hrw).
  rewrite forallb_forall in He. specialize (He _ Hx). discriminate.
Qed.

Lemma replay_removed_ids g ms g' :
  replay removeAll g ms = Some g' -> allEmpty g' = true ->
  NoDup (removed_ids g ms) /\ length (removed_ids g ms) = length ms /\
  (forall i, In i (removed_ids g ms) <-> In i (cell_ids g)).
Proof.
  revert g; induction ms as [|[r c] ms IH]; intros g E He; simpl in E.
  - injection E as <-. simpl. split; [constructor|]. split; auto.
    intros i; split; [intros []|intros Hi; exact (allEmpty_cell_ids g i He Hi)].
  - destruct (canExit g r c); [|discriminate].
    destruct (get g r c) as [x|] eqn:Hg; [|discriminate].
    destruct (IH _ E He) as (Hnd & Hlen & Hin). simpl. rewrite Hg.
    split; [|split; [simpl; auto|]].
    + constructor; auto. intros Hx. apply Hin, cell_ids_removeAll in Hx as [_ Hx]. auto.
    + intros i. simpl. rewrite Hin, cell_ids_removeAll. split.
      * intros [<-|[Hi _]]; [eapply get_In_cell_ids; eauto | exact Hi].
      * intros Hi. destruct (Nat.eq_dec (id x) i); [left; auto | right; auto].
Qed.

(** C10: when [findSolutionLimited] returns a solution, its moves remove
    pairwise distinct pieces and there are as many moves as distinct piece
    ids in the start grid; on an all-empty start grid (with at least one row)
    and a cap of at least 1 it returns the empty sequence. *)
Theorem solve_removes_each_piece_once (g : grid) (maxStates : nat) :
  (forall ms, findSolutionLimited g maxStates = Ret (Some ms) ->
     NoDup (removed_ids g ms) /\ length (removed_ids g ms) = length ms /\
     length ms = length (grid_ids g)) /\
  (g <> [] -> allEmpty g = true -> 1 <= maxStates -> findSolutionLimited g maxStates = Ret (Some [])).
Proof.
  split.
  - intros ms Hs. destruct (solve_sound_core g maxStates ms Hs) as (g' & E & He).
    destruct (replay_removed_ids g ms g' E He) as (Hnd & Hlen & Hin).
    split; [exact Hnd|]. split; [exact Hlen|]. rewrite <- Hlen.
    apply Nat.le_antisymm.
    + apply NoDup_incl_length; [exact Hnd|].
      intros i Hi. apply nodup_In, Hin, Hi.
    + apply NoDup_incl_length; [apply NoDup_nodup|].
      intros i Hi. apply Hin, (nodup_In Nat.eq_dec), Hi.
  - intros Hne He Hcap. unfold findSolutionLimited, solve_run.
    destruct g as [|row0 rest]; [contradiction|].
    destruct maxStates as [|m]; [lia|].
    change (solver_run pure_read pure_clone pure_removeId tt (row0 :: rest) (S m)) with
      (bfs pure_read pure_removeId (S (S m)) (length (row0 :: rest)) (length row0) (S m)
         [mkNode (row0 :: rest) []] [serializeGrid (row0 :: rest)] 0 tt).
    cbn [bfs ngrid nseq]. unfold pure_read at 1. rewrite He. reflexivity.
Qed.

(** ** C3: shape of the generated pieces *)

(** Cell [(fst p, snd p)] of the grid. *)
Definition get_p (g : grid) (p : Z * Z) : option cell := get_z g (fst p) (snd p).

(** The [k]-th segment of a piece whose head is at [(r, c)] and whose
    direction is [d]: [k] steps behind the head, as the generator lays it. *)
Definition seg_pos (r c : Z) (d : Dir) (k : nat) : Z * Z :=
  (r - fst (DIR_VECTORS d) * Z.of_nat k, c - snd (DIR_VECTORS d) * Z.of_nat k)%Z.

(** The segment object at index [k] of the piece of [x]. *)
Definition run_cell (x : cell) (k : nat) : cell := mkCell (id x) (dir x) (len x) (Nat.eqb k 0).

(** [rows x cols] dimensions. *)
Definition dims (rows cols : nat) (g : grid) : Prop :=
  length g = rows /\ forall i, i < rows -> length (nth i g []) = cols.

(** Every piece is a full straight run: from some head cell [h], its [len]
    cells [seg_pos h (dir x) k], [k < len], hold the segments [k] of the
    piece (the head being segment 0), and no other cell holds that id. *)
Definition piece_inv (g : grid) : Prop :=
  forall p x, get_p g p = Some x ->
  exists h : Z * Z,
    (forall k, k < len x -> get_p g (seg_pos (fst h) (snd h) (dir x) k) = Some (run_cell x k)) /\
    (forall p' y, get_p g p' = Some y -> id y = id x ->
       exists k, k < len x /\ p' = seg_pos (fst h) (snd h) (dir x) k).

(** The generator's invariant, as stated for the level grids: dimensions,
    every segment in bounds, pieces as full straight runs of [len] cells,
    exactly one head per piece id. *)
Definition grid_invariant (rows cols : nat) (g : grid) : Prop :=
  dims rows cols g /\
  (forall p x, get_p g p = Some x -> (0 <= fst p < Z.of_nat rows /\ 0 <= snd p < Z.of_nat cols)%Z) /\
  piece_inv g /\
  (forall p q x y, get_p g p = Some x -> get_p g q = Some y -> id x = id y ->
     head x = true -> head y = true -> p = q) /\
  (forall p x, get_p g p = Some x -> exists q h, get_p g q = Some h /\ id h = id x /\ head h = true).

(** Ids in the grid are below [n] (the next [idCounter]). *)
Definition fresh_below (g : grid) (n : nat) : Prop :=
  forall p y, get_p g p = Some y -> id y < n.

Lemma seg_pos_inj r c d j j' : seg_pos r c d j = seg_pos r c d j' -> j = j'.
Proof.
  unfold seg_pos. intros E.
  pose proof (f_equal fst E) as E1. pose proof (f_equal snd E) as E2. cbn [fst snd] in E1, E2.
  destruct d; cbn [DIR_VECTORS fst snd] in E1, E2; lia.
Qed.

Lemma get_p_in_dims rows cols g p x :
  dims rows cols g -> get_p g p = Some x -> (0 <= fst p < Z.of_nat rows /\ 0 <= snd p < Z.of_nat cols)%Z.
Proof.
  intros [Hl Hw]. destruct p as [r c]. unfold get_p, get_z; simpl.
  destruct (Z.ltb_spec r 0), (Z.ltb_spec c 0); simpl; try discriminate.
  intros E. destruct (get_some_range _ _ _ _ E) as [Hr Hc].
  rewrite Hw in Hc by lia. lia.
Qed.

Lemma get_p_set_cell rows cols g (rr cc : Z) v p :
  dims rows cols g -> (0 <= rr < Z.of_nat rows)%Z -> (0 <= cc < Z.of_nat cols)%Z ->
  get_p (set_cell g (Z.to_nat rr) (Z.to_nat cc) v) p =
  if Z.eqb (fst p) rr && Z.eqb (snd p) cc then v else get_p g p.
Proof.
  intros [Hl Hw] Hr Hc. destruct p as [r c]. unfold get_p, get_z; simpl.
  destruct (Z.ltb_spec r 0), (Z.ltb_spec c 0); simpl;
    try (destruct (Z.eqb_spec r rr), (Z.eqb_spec c cc); simpl; auto; lia).
  rewrite get_set_cell, Hl, Hw by lia.
  rewrite (proj2 (Nat.ltb_lt (Z.to_nat rr) rows)) by lia.
  rewrite (proj2 (Nat.ltb_lt (Z.to_nat cc) cols)) by lia.
  destruct (Z.eqb_spec r rr), (Z.eqb_spec c cc), (Nat.eqb_spec (Z.to_nat r) (Z.to_nat rr)),
    (Nat.eqb_spec (Z.to_nat c) (Z.to_nat cc)); simpl; auto; lia.
Qed.

Lemma dims_set_cell rows cols g r c v : dims rows cols g -> dims rows cols (set_cell g r c v).
Proof.
  intros [Hl Hw]. split; [rewrite length_set_cell; auto|].
  intros i Hi. rewrite length_row_set_cell. auto.
Qed.

Lemma positions_from_spec rows cols g r c d dr dc :
  DIR_VECTORS d = (dr, dc) ->
  forall m k ps, positions_from (Z.of_nat rows) (Z.of_nat cols) g r c dr dc k m = Some ps ->
  ps = map (seg_pos r c d) (seq k m) /\
  forall j, k <= j < k + m ->
    (0 <= fst (seg_pos r c d j) < Z.of_nat rows /\ 0 <= snd (seg_pos r c d j) < Z.of_nat cols)%Z /\
    get_p g (seg_pos r c d j) = None.
Proof.
  intros Hd. induction m as [|m IH]; intros k ps E; simpl in E.
  - injection E as <-. split; auto. intros; lia.
  - rewrite !Z.geb_leb in E.
    destruct (Z.ltb_spec (r - dr * Z.of_nat k) 0); simpl in E; [discriminate|].
    destruct (Z.leb_spec (Z.of_nat rows) (r - dr * Z.of_nat k)); simpl in E; [discriminate|].
    destruct (Z.ltb_spec (c - dc * Z.of_nat k) 0); simpl in E; [discriminate|].
    destruct (Z.leb_spec (Z.of_nat cols) (c - dc * Z.of_nat k)); simpl in E; [discriminate|].
    destruct (get_z g (r - dr * Z.of_nat k) (c - dc * Z.of_nat k)) eqn:Hg; [discriminate|].
    destruct (positions_from (Z.of_nat rows) (Z.of_nat cols) g r c dr dc (S k) m) as [ps'|] eqn:E';
      [|discriminate].
    simpl in E. injection E as <-.
    destruct (IH (S k) ps' E') as [-> Hrest].
    assert (Hk : seg_pos r c d k = (r - dr * Z.of_nat k, c - dc * Z.of_nat k)%Z)
      by (unfold seg_pos; rewrite Hd; reflexivity).
    split; [simpl; rewrite Hk; reflexivity|].
    intros j Hj. destruct (Nat.eq_dec j k) as [->|Hne].
    + rewrite Hk. simpl. unfold get_p. simpl. rewrite Hg. split; auto; lia.
    + apply Hrest; lia.
Qed.

Lemma place_spec rows cols r c d mk :
  forall m k g,
    dims rows cols g ->
    (forall j, k <= j < k + m ->
       (0 <= fst (seg_pos r c d j) < Z.of_nat rows /\ 0 <= snd (seg_pos r c d j) < Z.of_nat cols)%Z) ->
    dims rows cols (place g (map (seg_pos r c d) (seq k m)) k mk) /\
    (forall j, k <= j < k + m -> get_p (place g (map (seg_pos r c d) (seq k m)) k mk) (seg_pos r c d j) = Some (mk j)) /\
    (forall p, (forall j, k <= j < k + m -> p <> seg_pos r c d j) ->
       get_p (place g (map (seg_pos r c d) (seq k m)) k mk) p = get_p g p).
Proof.
  induction m as [|m IH]; intros k g Hdims Hb; cbn [seq map].
  - split; [exact Hdims|]. split; [intros; lia|]. reflexivity.
  - destruct (Hb k ltac:(lia)) as [Hr Hc].
    destruct (seg_pos r c d k) as [rr cc] eqn:Hk. cbn [place]. cbn [fst snd] in Hr, Hc.
    set (g1 := set_cell g (Z.to_nat rr) (Z.to_nat cc) (Some (mk k))).
    assert (Hd1 : dims rows cols g1) by (apply dims_set_cell; auto).
    destruct (IH (S k) g1 Hd1 ltac:(intros j Hj; apply Hb; lia)) as (Hd' & Hin & Hout).
    split; [exact Hd'|]. split.
    + intros j Hj. destruct (Nat.eq_dec j k) as [->|Hne]; [|apply Hin; lia].
      rewrite Hk, Hout.
      * unfold g1. rewrite (get_p_set_cell rows cols) by auto. simpl.
        rewrite !Z.eqb_refl. reflexivity.
      * intros j2 Hj2 E. rewrite <- Hk in E. apply seg_pos_inj in E. lia.
    + intros p Hp. rewrite Hout by (intros j Hj; apply Hp; lia).
      unfold g1. rewrite (get_p_set_cell rows cols) by auto.
      destruct (Z.eqb_spec (fst p) rr), (Z.eqb_spec (snd p) cc); simpl; auto.
      exfalso. apply (Hp k); [lia|]. rewrite Hk. destruct p; simpl in *; subst; auto.
Qed.

Lemma seg_dec r c d n p :
  (exists j, j < n /\ p = seg_pos r c d j) \/ (forall j, j < n -> p <> seg_pos r c d j).
Proof.
  induction n as [|n IH].
  - right. intros; lia.
  - destruct IH as [(j & Hj & E)|Hno]; [left; exists j; split; [lia|auto]|].
    destruct p as [a b]. destruct (seg_pos r c d n) as [a' b'] eqn:Hn.
    destruct (Z.eq_dec a a'), (Z.eq_dec b b'); subst.
    + left. exists n. split; auto.
    + right. intros j Hj E. destruct (Nat.eq_dec j n); [subst; rewrite Hn in E; congruence|].
      apply (Hno j); [lia|auto].
    + right. intros j Hj E. destruct (Nat.eq_dec j n); [subst; rewrite Hn in E; congruence|].
      apply (Hno j); [lia|auto].
    + right. intros j Hj E. destruct (Nat.eq_dec j n); [subst; rewrite Hn in E; congruence|].
      apply (Hno j); [lia|auto].
Qed.

(** What the generator keeps true between two placements. *)
Definition gen_inv (rows cols : nat) (g : grid) (idc : nat) : Prop :=
  dims rows cols g /\ piece_inv g /\ fresh_below g idc.

Lemma get_p_empty_grid rows cols p : get_p (empty_grid rows cols) p = None.
Proof.
  destruct p as [a b]. unfold get_p, get_z; simpl.
  destruct ((a <? 0)%Z || (b <? 0)%Z); auto. apply get_empty_grid.
Qed.

Lemma gen_inv_empty rows cols idc : gen_inv rows cols (empty_grid rows cols) idc.
Proof.
  split; [|split].
  - split; [apply length_empty_grid|]. intros i Hi. rewrite row_empty_grid by auto.
    apply repeat_length.
  - intros p x E. rewrite get_p_empty_grid in E. discriminate.
  - intros p y E. rewrite get_p_empty_grid in E. discriminate.
Qed.

Lemma gen_inv_place rows cols g idc r c d len :
  gen_inv rows cols g idc ->
  (forall j, j < len ->
     (0 <= fst (seg_pos r c d j) < Z.of_nat rows /\ 0 <= snd (seg_pos r c d j) < Z.of_nat cols)%Z /\
     get_p g (seg_pos r c d j) = None) ->
  gen_inv rows cols
    (place g (map (seg_pos r c d) (seq 0 len)) 0 (fun k => mkCell idc d len (Nat.eqb k 0))) (S idc).
Proof.
  intros (Hd & Hpi & Hfr) Hps.
  set (mk := fun k => mkCell idc d len (Nat.eqb k 0)).
  destruct (place_spec rows cols r c d mk len 0 g Hd ltac:(intros j Hj; apply Hps; lia))
    as (Hd' & Hin & Hout).
  set (g' := place g (map (seg_pos r c d) (seq 0 len)) 0 mk) in *.
  (* every occupied cell of the new grid is a new segment or an old cell *)
  assert (Hcase : forall p y, get_p g' p = Some y ->
            (exists j, j < len /\ p = seg_pos r c d j /\ y = mk j) \/
            ((forall j, j < len -> p <> seg_pos r c d j) /\ get_p g p = Some y)).
  { intros p y E. destruct (seg_dec r c d len p) as [(j & Hj & ->)|Hno].
    - left. exists j. rewrite Hin in E by lia. injection E as <-. auto.
    - right. split; auto. rewrite <- Hout by (intros j Hj; apply Hno; lia). auto. }
  split; [exact Hd'|split].
  - intros p x E. destruct (Hcase p x E) as [(j & Hj & -> & ->)|(Hno & Eg)].
    + exists (r, c). simpl. split.
      * intros k Hk. rewrite Hin by lia. reflexivity.
      * intros p' y E' Hid. destruct (Hcase p' y E') as [(j' & Hj' & -> & ->)|(_ & Eg')].
        -- exists j'. auto.
        -- apply Hfr in Eg'. simpl in Hid. lia.
    + destruct (Hpi p x Eg) as (h & Hrun & Huniq). exists h. split.
      * intros k Hk. pose proof (Hrun k Hk) as Ek.
        rewrite Hout; auto. intros j Hj E2. rewrite E2, (proj2 (Hps j ltac:(lia))) in Ek. discriminate.
      * intros p' y E' Hid. destruct (Hcase p' y E') as [(j' & Hj' & -> & ->)|(_ & Eg')].
        -- apply Hfr in Eg. simpl in Hid. lia.
        -- apply (Huniq p' y Eg' Hid).
  - intros p y E. destruct (Hcase p y E) as [(j & Hj & -> & ->)|(_ & Eg)].
    + simpl. lia.
    + apply Hfr in Eg. lia.
Qed.

Definition gen_ok (rows cols : nat) (st : gen_state) : Prop :=
  let '(g, idc, _) := st in gen_inv rows cols g idc.

Lemma gen_cell_ok rows cols rnd st r c :
  gen_ok rows cols st -> gen_ok rows cols (gen_cell rows cols rnd st r c).
Proof.
  destruct st as [[g idc] n]. unfold gen_cell, gen_ok. intros Hinv.
  destruct (get g r c); auto.
  destruct (rnd n) as [[d k]|]; auto.
  destruct (DIR_VECTORS d) as [dr dc] eqn:Hdv.
  destruct (positions_from (Z.of_nat rows) (Z.of_nat cols) g (Z.of_nat r) (Z.of_nat c) dr dc 0 (1 + k))
    as [ps|] eqn:Hp; auto.
  destruct (positions_from_spec rows cols g (Z.of_nat r) (Z.of_nat c) d dr dc Hdv (1 + k) 0 ps Hp)
    as [-> Hps].
  apply gen_inv_place; auto. intros j Hj. apply Hps. lia.
Qed.

Lemma fold_left_inv {A B} (P : A -> Prop) (f : A -> B -> A) (l : list B) (a : A) :
  (forall a b, P a -> P (f a b)) -> P a -> P (fold_left f l a).
Proof.
  revert a. induction l as [|b l IH]; intros a Hf Ha; simpl; auto.
Qed.

Lemma build_attempt_ok rows cols rnd idc n : gen_ok rows cols (build_attempt rows cols rnd idc n).
Proof.
  unfold build_attempt. apply fold_left_inv.
  - intros st r Hst. apply fold_left_inv; auto.
    intros st' c Hst'. apply gen_cell_ok; auto.
  - apply gen_inv_empty.
Qed.

Lemma attempts_ok rows cols rnd remaining :
  forall idc n g, attempts rows cols rnd remaining idc n = Some g -> exists idc', gen_inv rows cols g idc'.
Proof.
  induction remaining as [|m IH]; intros idc n g E; simpl in E; [discriminate|].
  pose proof (build_attempt_ok rows cols rnd idc n) as Hok.
  destruct (build_attempt rows cols rnd idc n) as [[g0 idc0] n0]. simpl in Hok.
  destruct (hasArrow g0 && hasImmediateExit g0).
  - match type of E with context [findSolutionLimited g0 ?b] =>
      destruct (findSolutionLimited g0 b) as [|[s|]] end.
    + eapply IH; eauto.
    + injection E as <-. eauto.
    + eapply IH; eauto.
  - eapply IH; eauto.
Qed.

Lemma gen_inv_grid_invariant rows cols g idc : gen_inv rows cols g idc -> grid_invariant rows cols g.
Proof.
  intros (Hd & Hpi & _). split; [exact Hd|split; [|split; [exact Hpi|split]]].
  - intros p x E. eapply get_p_in_dims; eauto.
  - intros p q x y Ep Eq Hid Hx Hy.
    destruct (Hpi p x Ep) as (h & Hrun & Huniq).
    destruct (Huniq p x Ep eq_refl) as (j & Hj & Ej).
    destruct (Huniq q y Eq (eq_sym Hid)) as (j' & Hj' & Ej').
    pose proof (Hrun j Hj) as Rj. pose proof (Hrun j' Hj') as Rj'.
    rewrite <- Ej, Ep in Rj. rewrite <- Ej', Eq in Rj'.
    injection Rj as Rj. injection Rj' as Rj'. rewrite Rj in Hx. rewrite Rj' in Hy.
    unfold run_cell in Hx, Hy. simpl in Hx, Hy.
    apply Nat.eqb_eq in Hx. apply Nat.eqb_eq in Hy. subst. auto.
  - intros p x E. destruct (Hpi p x E) as (h & Hrun & Huniq).
    destruct (Huniq p x E eq_refl) as (j & Hj & _).
    exists (seg_pos (fst h) (snd h) (dir x) 0), (run_cell x 0). split; [apply Hrun; lia|].
    split; reflexivity.
Qed.

Lemma fallback_cells rows cols :
  1 <= rows -> 2 <= cols ->
  get (fallback rows cols) 0 0 = Some (mkCell 1 R 1 true) /\
  get (fallback rows cols) 0 1 = Some (mkCell 1 R 1 false).
Proof.
  intros Hr Hc. unfold fallback.
  rewrite (proj2 (Nat.leb_le 1 rows)), (proj2 (Nat.leb_le 2 cols)), (proj2 (Nat.ltb_lt 1 cols)) by lia.
  simpl andb. cbv iota.
  rewrite !get_set_cell, length_set_cell, length_row_set_cell, length_empty_grid,
    row_empty_grid, repeat_length by lia.
  repeat (rewrite (proj2 (Nat.ltb_lt _ _)) by lia). simpl. auto.
Qed.

(** The fallback piece has length field 1 but two cells: it is not a run of
    [len] cells behind its head. *)
Lemma fallback_not_invariant rows cols :
  1 <= rows -> 2 <= cols -> ~ grid_invariant rows cols (fallback rows cols).
Proof.
  intros Hr Hc (_ & _ & Hpi & _).
  destruct (fallback_cells rows cols Hr Hc) as [E0 E1].
  assert (P0 : get_p (fallback rows cols) (0%Z, 0%Z) = Some (mkCell 1 R 1 true)) by exact E0.
  assert (P1 : get_p (fallback rows cols) (0%Z, 1%Z) = Some (mkCell 1 R 1 false)) by exact E1.
  destruct (Hpi _ _ P0) as (h & _ & Huniq).
  destruct (Huniq _ _ P0 eq_refl) as (j & Hj & Ej).
  destruct (Huniq _ _ P1 eq_refl) as (j' & Hj' & Ej').
  simpl in Hj, Hj'. assert (j = 0) by lia. assert (j' = 0) by lia. subst j j'.
  rewrite <- Ej in Ej'. discriminate.
Qed.

(** C3 (amended): a grid that [generate] returns from an accepted attempt
    satisfies the grid invariant: dimensions [rows x cols], every segment in
    bounds, each piece a straight run of exactly [len] cells behind its head
    along its direction (so distinct pieces never overlap), and exactly one
    head per piece id. Otherwise no attempt was accepted and the result is the
    fallback, which breaks the invariant whenever it holds a piece. *)
Theorem generate_grid_invariant (rows cols : nat) (rnd : nat -> draw) (maxAttempts : nat) :
  grid_invariant rows cols (generate rows cols rnd maxAttempts) \/
  (attempts rows cols rnd maxAttempts 1 0 = None /\
   generate rows cols rnd maxAttempts = fallback rows cols /\
   (1 <= rows -> 2 <= cols -> ~ grid_invariant rows cols (fallback rows cols))).
Proof.
  unfold generate.
  destruct (attempts rows cols rnd maxAttempts 1 0) as [g|] eqn:E.
  - left. destruct (attempts_ok rows cols rnd maxAttempts 1 0 g E) as [idc Hinv].
    eapply gen_inv_grid_invariant; eauto.
  - right. split; [reflexivity|]. split; [reflexivity|]. apply fallback_not_invariant.
Qed.

(** C3 fails for the fallback: on a 1x2 board with no successful draw, every
    attempt is rejected and the returned fallback holds a piece of length
    field 1 made of two cells, (0,0) and (0,1). *)
Lemma generate_fallback_breaks_invariant :
  generate 1 2 no_draws 1 = fallback 1 2 /\
  get (generate 1 2 no_draws 1) 0 0 = Some (mkCell 1 R 1 true) /\
  get (generate 1 2 no_draws 1) 0 1 = Some (mkCell 1 R 1 false) /\
  ~ grid_invariant 1 2 (generate 1 2 no_draws 1).
Proof.
  assert (H : generate 1 2 no_draws 1 = fallback 1 2) by (vm_compute; reflexivity).
  split; [exact H|]. rewrite H. split; [vm_compute; reflexivity|]. split; [vm_compute; reflexivity|].
  apply fallback_not_invariant; lia.
Qed.

(** ** C9: the solver leaves its argument untouched *)

(** The JavaScript heap: the grid arrays and row arrays live at addresses
    below [next]; an array slot holds [null], a cell object or a reference to
    an array. No code writes a field of a cell object, so a cell object is
    kept as its value ([{ ...c }] copies that value). *)
Inductive val := VNull | VCell (x : cell) | VRef (a : nat).

Record heap := mkHeap { next : nat; mem : nat -> list val }.

Definition cell_of (v : val) : option cell :=
  match v with VCell x => Some x | _ => None end.

(** The grid seen through the array at address [l]. *)
Definition hread (h : heap) (l : nat) : grid :=
  map (fun v => match v with VRef a => map cell_of (mem h a) | _ => [] end) (mem h l).

(** [arr[a] = vs] on the whole array at [a]. *)
Definition hset (h : heap) (a : nat) (vs : list val) : heap :=
  mkHeap (next h) (fun b => if Nat.eqb b a then vs else mem h b).

(** A fresh array holding [vs]. *)
Definition alloc (h : heap) (vs : list val) : nat * heap :=
  (next h, mkHeap (S (next h)) (fun b => if Nat.eqb b (next h) then vs else mem h b)).

(** [r.map((c) => (c ? { ...c } : null))] *)
Definition row_copy (h : heap) (v : val) : list val :=
  match v with
  | VRef a => map (fun c => match c with VCell x => VCell x | _ => VNull end) (mem h a)
  | _ => []
  end.

Fixpoint clone_rows (h : heap) (rs : list val) : list val * heap :=
  match rs with
  | [] => ([], h)
  | v :: rs' =>
      let '(a, h1) := alloc h (row_copy h v) in
      let '(vs, h2) := clone_rows h1 rs' in
      (VRef a :: vs, h2)
  end.

(** [cloneState(g)]: [g.map] allocates the outer array, then one row per row. *)
Definition heap_clone (h : heap) (l : nat) : nat * heap :=
  let '(o, h1) := alloc h [] in
  let '(refs, h2) := clone_rows h1 (mem h l) in
  (o, hset h2 o refs).

(** [if (ng[r][c] && ng[r][c].id === id) ng[r][c] = null] *)
Definition clear_step (i ng r c : nat) (h : heap) : heap :=
  match nth r (mem h ng) VNull with
  | VRef a =>
      match nth c (mem h a) VNull with
      | VCell x => if Nat.eqb (id x) i then hset h a (list_set (mem h a) c VNull) else h
      | _ => h
      end
  | _ => h
  end.

(** [removeId(g, id)] on the heap. *)
Definition heap_removeId (rows cols : nat) (h : heap) (l i : nat) : nat * heap :=
  let '(ng, h1) := heap_clone h l in
  (ng, fold_left (fun h r => fold_left (fun h c => clear_step i ng r c h) (seq 0 cols) h)
         (seq 0 rows) h1).

(** [findSolutionLimited] run on the heap, the start grid being the array at [l]. *)
Definition heap_solve (h : heap) (l maxStates : nat) : run_result * heap :=
  solver_run hread heap_clone heap_removeId h l maxStates.

(** The array at [l] and its rows are allocated. *)
Definition allocated (h : heap) (l : nat) : bool :=
  Nat.ltb l (next h) &&
  forallb (fun v => match v with VRef a => Nat.ltb a (next h) | _ => true end) (mem h l).

(** [h'] extends [h]: nothing allocated in [h] has changed. *)
Definition extends (h h' : heap) : Prop :=
  next h <= next h' /\ forall a, a < next h -> mem h' a = mem h a.

Section Frame.
Variables (St Hd : Type) (read : St -> Hd -> grid) (cloneState : St -> Hd -> Hd * St)
          (removeIdS : nat -> nat -> St -> Hd -> nat -> Hd * St).
Variable Rel : St -> St -> Prop.
Hypothesis Rel_refl : forall s, Rel s s.
Hypothesis Rel_trans : forall s1 s2 s3, Rel s1 s2 -> Rel s2 s3 -> Rel s1 s3.
Hypothesis clone_Rel : forall s g, Rel s (snd (cloneState s g)).
Hypothesis removeId_Rel : forall rows cols s g i, Rel s (snd (removeIdS rows cols s g i)).

Lemma expand_Rel rows cols g sq moves :
  forall q vis s, Rel s (snd (expand read removeIdS rows cols g sq moves (q, vis, s))).
Proof.
  unfold expand. induction moves as [|[r c] moves IH]; intros q vis s; simpl; auto.
  destruct (get (read s g) r c) as [x|]; [|apply IH].
  pose proof (removeId_Rel rows cols s g (id x)) as Hs.
  destruct (removeIdS rows cols s g (id x)) as [ng s']. simpl in Hs.
  destruct (has vis (serializeGrid (read s' ng))); eapply Rel_trans; eauto.
Qed.

Lemma bfs_Rel rows cols maxStates :
  forall fuel queue visited states s,
    Rel s (snd (bfs read removeIdS fuel rows cols maxStates queue visited states s)).
Proof.
  induction fuel as [|fuel IH]; intros queue visited states s; simpl; auto.
  destruct queue as [|nd rest]; simpl; auto.
  destruct (Nat.ltb maxStates (S states)); simpl; auto.
  destruct (allEmpty (read s (ngrid nd))); simpl; auto.
  pose proof (expand_Rel rows cols (ngrid nd) (nseq nd) (moves_of rows cols (read s (ngrid nd)))
                rest visited s) as He.
  destruct (expand read removeIdS rows cols (ngrid nd) (nseq nd)
              (moves_of rows cols (read s (ngrid nd))) (rest, visited, s)) as [[q' vis'] s'].
  eapply Rel_trans; eauto.
Qed.

Lemma solver_run_Rel s startGrid maxStates :
  Rel s (snd (solver_run read cloneState removeIdS s startGrid maxStates)).
Proof.
  unfold solver_run. destruct (read s startGrid) as [|row0 rest]; [apply Rel_refl|].
  pose proof (clone_Rel s startGrid) as Hc.
  destruct (cloneState s startGrid) as [g0 s1]. cbn [snd] in Hc.
  eapply Rel_trans; [exact Hc|apply bfs_Rel].
Qed.
End Frame.

Lemma extends_refl h : extends h h.
Proof. split; auto. Qed.

Lemma extends_trans h1 h2 h3 : extends h1 h2 -> extends h2 h3 -> extends h1 h3.
Proof.
  intros [L1 M1] [L2 M2]. split; [lia|]. intros a Ha. rewrite M2 by lia. auto.
Qed.

Lemma extends_alloc h0 h vs : extends h0 h -> extends h0 (snd (alloc h vs)) /\ next h0 <= fst (alloc h vs).
Proof.
  intros [L M]. simpl. split; [split; [simpl; lia|]|lia].
  intros a Ha. simpl. destruct (Nat.eqb_spec a (next h)); [lia|auto].
Qed.

Lemma extends_hset h0 h a vs : extends h0 h -> next h0 <= a -> extends h0 (hset h a vs).
Proof.
  intros [L M] Ha. split; [simpl; lia|]. intros b Hb. simpl.
  destruct (Nat.eqb_spec b a); [lia|auto].
Qed.

Lemma clone_rows_extends h0 rs :
  forall h, extends h0 h ->
  extends h0 (snd (clone_rows h rs)) /\ (forall a, In (VRef a) (fst (clone_rows h rs)) -> next h0 <= a).
Proof.
  induction rs as [|v rs IH]; intros h Hh; cbn [clone_rows]; [split; [auto|simpl; tauto]|].
  destruct (extends_alloc h0 h (row_copy h v) Hh) as [H1 Ha].
  destruct (alloc h (row_copy h v)) as [a h1]. cbn [fst snd] in H1, Ha.
  destruct (IH h1 H1) as [H2 Hrefs].
  destruct (clone_rows h1 rs) as [vs h2]. cbn [fst snd] in *. split; auto.
  intros b [Eb|Hb]; [injection Eb as <-; auto|auto].
Qed.

Lemma heap_clone_extends h l :
  extends h (snd (heap_clone h l)) /\
  (forall a, In (VRef a) (mem (snd (heap_clone h l)) (fst (heap_clone h l))) -> next h <= a).
Proof.
  unfold heap_clone.
  destruct (extends_alloc h h [] (extends_refl h)) as [H1 Ho].
  destruct (alloc h []) as [o h1]. cbn [fst snd] in H1, Ho.
  destruct (clone_rows_extends h (mem h l) h1 H1) as [H2 Hrefs].
  destruct (clone_rows h1 (mem h l)) as [refs h2]. cbn [fst snd] in *. split.
  - apply extends_hset; auto.
  - intros a. cbn [hset mem]. rewrite Nat.eqb_refl. auto.
Qed.

Lemma In_list_set {A} (l : list A) n (x y : A) : In y (list_set l n x) -> y = x \/ In y l.
Proof.
  revert n. induction l as [|z l IH]; intros n H; simpl in *; [tauto|].
  destruct n as [|n]; simpl in H; destruct H as [H|H].
  - left. auto.
  - right. right. auto.
  - right. left. auto.
  - destruct (IH n H); auto.
Qed.

Lemma clear_step_extends h0 i ng r c h :
  extends h0 h -> (forall a, In (VRef a) (mem h ng) -> next h0 <= a) ->
  extends h0 (clear_step i ng r c h) /\
  (forall a, In (VRef a) (mem (clear_step i ng r c h) ng) -> next h0 <= a).
Proof.
  intros He Hrefs. unfold clear_step.
  destruct (nth r (mem h ng) VNull) as [| |a] eqn:Er; auto.
  assert (Ha : next h0 <= a).
  { apply Hrefs. destruct (Nat.lt_ge_cases r (length (mem h ng))).
    - rewrite <- Er. apply nth_In. auto.
    - rewrite nth_overflow in Er by auto. discriminate. }
  destruct (nth c (mem h a) VNull) as [|x|]; auto.
  destruct (Nat.eqb (id x) i); auto. split; [apply extends_hset; auto|].
  intros b Hb. simpl in Hb. destruct (Nat.eqb_spec ng a).
  - subst a. destruct (In_list_set _ _ _ _ Hb) as [E|E]; [discriminate|auto].
  - auto.
Qed.

Lemma heap_removeId_extends rows cols h l i : extends h (snd (heap_removeId rows cols h l i)).
Proof.
  unfold heap_removeId.
  destruct (heap_clone_extends h l) as [H1 Hrefs].
  destruct (heap_clone h l) as [ng h1]. simpl in *.
  set (P := fun h' => extends h h' /\ (forall a, In (VRef a) (mem h' ng) -> next h <= a)).
  enough (HP : P (fold_left (fun h r => fold_left (fun h c => clear_step i ng r c h) (seq 0 cols) h)
                    (seq 0 rows) h1)) by apply HP.
  apply fold_left_inv; [|split; auto].
  intros h' r Hh'. apply fold_left_inv; auto.
  intros h'' c [He Hr]. apply clear_step_extends; auto.
Qed.

Lemma hread_extends h h' l : extends h h' -> allocated h l = true -> hread h' l = hread h l.
Proof.
  intros [L M] Hal. unfold allocated in Hal. apply andb_prop in Hal as [Hl Hrows].
  apply Nat.ltb_lt in Hl. rewrite forallb_forall in Hrows.
  unfold hread. rewrite (M l Hl). apply map_ext_in. intros v Hv.
  destruct v as [| |a]; auto. specialize (Hrows _ Hv). simpl in Hrows.
  apply Nat.ltb_lt in Hrows. rewrite M; auto.
Qed.

(** C9: [findSolutionLimited] is a pure query on its argument: when the start
    grid and its rows are allocated arrays, every array allocated before the
    call holds after it exactly what it held before (the search writes only
    into its clones), so every cell of the start grid is unchanged. *)
Theorem findSolution_heap_frame (h : heap) (l maxStates : nat) :
  allocated h l = true ->
  (forall a, a < next h -> mem (snd (heap_solve h l maxStates)) a = mem h a) /\
  hread (snd (heap_solve h l maxStates)) l = hread h l.
Proof.
  intros Hal.
  assert (He : extends h (snd (heap_solve h l maxStates))).
  { unfold heap_solve. apply (solver_run_Rel heap nat hread heap_clone heap_removeId extends).
    - apply extends_refl.
    - apply extends_trans.
    - intros s g. apply heap_clone_extends.
    - intros rows cols s g i. apply heap_removeId_extends. }
  split; [apply He|]. apply hread_extends; auto.
Qed.

(** The 2x2 board [g_single] laid out as arrays: the grid at 0, its rows at 1 and 2. *)
Definition heap_single : heap :=
  mkHeap 3 (fun a =>
    match a with
    | 0 => [VRef 1; VRef 2]
    | 1 => [VCell piece1R; VNull]
    | 2 => [VNull; VNull]
    | _ => []
    end).

Lemma findSolution_heap_frame_witness :
  allocated heap_single 0 = true /\
  hread heap_single 0 = g_single /\
  fst (heap_solve heap_single 0 10) = RDone (Some [(0, 0)]) 2 /\
  hread (snd (heap_solve heap_single 0 10)) 0 = hread heap_single 0.
Proof.
  split; [reflexivity|]. split; [vm_compute; reflexivity|]. split; [vm_compute; reflexivity|].
  apply (findSolution_heap_frame heap_single 0 10). reflexivity.
Defined.

(** ** The game component: clicks, hints and the status line *)

(** [cloneGrid(g)]: a copy of each row, each cell object copied by value. *)
Definition cloneGrid (g : grid) : grid :=
  map (map (fun cell => match cell with Some x => Some x | None => None end)) g.

(** The state the handlers change: [grid] and [hintCell]. (The timers that
    later reset [hintCell] to [null] are separate events.) *)
Record ui := mkUI { ugrid : grid; uhint : option move }.

(** [handleClick(r, c)]; [grid[r]] is [undefined] past the last row, so
    reading [grid[r][c]] there throws. *)
Definition handleClick (st : ui) (r c : nat) : js ui :=
  let g := ugrid st in
  if Nat.ltb r (length g) then
    match get g r c with
    | None => Ret st
    | Some x =>
        if negb (head x) then Ret st
        else if canExit g r c then
          let ng := cloneGrid g in
          Ret (mkUI (removeId (length ng) (length (nth 0 ng [])) ng (id x)) None)
        else Ret (mkUI g (Some (r, c)))
    end
  else Throw.

(** A sequence of clicks. *)
Fixpoint play (st : ui) (ms : list move) : js ui :=
  match ms with
  | [] => Ret st
  | (r, c) :: ms' =>
      match handleClick st r c with
      | Throw => Throw
      | Ret st' => play st' ms'
      end
  end.

(** The loops of [giveHint]: the first head, in row-major order, that can exit. *)
Definition hint_scan (g : grid) : option move :=
  find (fun '(r, c) =>
          match get g r c with Some x => head x && canExit g r c | None => false end)
    (flat_map (fun r => map (fun c => (r, c)) (seq 0 (length (nth 0 g [])))) (seq 0 (length g))).

(** [giveHint()]: the new state, and whether the "No arrow can exit" alert is shown. *)
Definition giveHint (st : ui) : ui * bool :=
  match hint_scan (ugrid st) with
  | Some m => (mkUI (ugrid st) (Some m), false)
  | None => (mkUI (ugrid st) None, true)
  end.

(** [grid.flat().filter(Boolean).filter((c) => c.head).length] *)
Definition arrows_left (g : grid) : nat :=
  length (filter (fun o => match o with Some x => head x | None => false end) (concat g)).

(** [cleared] *)
Definition cleared (g : grid) : bool := allEmpty g.

(** Every row as long as row 0, as [handleClick] and [giveHint] assume. *)
Definition rect (g : grid) : Prop :=
  forall r, r < length g -> length (nth r g []) = length (nth 0 g []).

(** The grid can be cleared by some sequence of exits. *)
Definition clearable (g : grid) : Prop :=
  exists ms g', replay removeAll g ms = Some g' /\ allEmpty g' = true.

Lemma cloneGrid_id g : cloneGrid g = g.
Proof.
  unfold cloneGrid. rewrite <- (map_id g) at 2. apply map_ext. intros r.
  rewrite <- (map_id r) at 2. apply map_ext. intros [x|]; reflexivity.
Qed.

Lemma removeId_rect g i :
  rect g -> removeId (length g) (length (nth 0 g [])) g i = removeAll g i.
Proof.
  intros Hr. apply grid_ext.
  - eapply same_shape_trans; [apply shape_removeId|apply same_shape_sym, shape_removeAll].
  - intros r c. rewrite get_removeId, get_removeAll.
    destruct (hit i (get g r c)) eqn:Hh; [|rewrite andb_false_r; reflexivity].
    destruct (get g r c) as [x|] eqn:Hg; [|discriminate].
    destruct (get_some_range _ _ _ _ Hg) as [H1 H2]. rewrite Hr in H2 by auto.
    rewrite (proj2 (Nat.ltb_lt _ _) H1), (proj2 (Nat.ltb_lt _ _) H2). reflexivity.
Qed.

Lemma rect_removeAll g i : rect g -> rect (removeAll g i).
Proof.
  intros Hr r Hlt. destruct (shape_removeAll g i) as [Hl Hw].
  rewrite !Hw. apply Hr. rewrite <- Hl. auto.
Qed.

Lemma canExit_head g r c : canExit g r c = true -> exists x, get g r c = Some x /\ head x = true.
Proof.
  unfold canExit. destruct (get g r c) as [x|]; [|discriminate].
  destruct (head x) eqn:Hh; [|discriminate]. intros _. exists x. split; auto.
Qed.

Lemma handleClick_exit g h r c x :
  rect g -> get g r c = Some x -> canExit g r c = true ->
  handleClick (mkUI g h) r c = Ret (mkUI (removeAll g (id x)) None).
Proof.
  intros Hr Hg He. destruct (canExit_head _ _ _ He) as (x' & Hg' & Hh).
  rewrite Hg in Hg'. injection Hg' as <-.
  destruct (get_some_range _ _ _ _ Hg) as [H1 _].
  unfold handleClick. cbn [ugrid]. rewrite (proj2 (Nat.ltb_lt _ _) H1), Hg, Hh, He.
  cbn [negb]. rewrite cloneGrid_id, removeId_rect by auto. reflexivity.
Qed.

Lemma play_replay g h ms g' :
  rect g -> replay removeAll g ms = Some g' ->
  exists h', play (mkUI g h) ms = Ret (mkUI g' h').
Proof.
  revert g h. induction ms as [|[r c] ms IH]; intros g h Hr E; simpl in E.
  - injection E as <-. exists h. reflexivity.
  - destruct (canExit g r c) eqn:He; [|discriminate].
    destruct (get g r c) as [x|] eqn:Hg; [|discriminate].
    cbn [play]. rewrite (handleClick_exit g h r c x Hr Hg He).
    apply IH; [apply rect_removeAll; auto|exact E].
Qed.

Lemma find_hd_filter {A} (f : A -> bool) (l : list A) : find f l = hd_error (filter f l).
Proof. induction l as [|a l IH]; simpl; auto. destruct (f a); auto. Qed.

Definition exit_here (g : grid) (m : move) : bool :=
  let '(r, c) := m in match get g r c with Some x => head x && canExit g r c | None => false end.

Lemma moves_of_filter_row g r cs :
  flat_map (fun c =>
      match get g r c with
      | Some x => if head x && canExit g r c then [(r, c)] else []
      | None => []
      end) cs =
  filter (exit_here g) (map (fun c => (r, c)) cs).
Proof.
  induction cs as [|c cs IHc]; [reflexivity|]. cbn [flat_map map filter]. rewrite IHc.
  unfold exit_here at 2. destruct (get g r c) as [x|]; [|reflexivity].
  destruct (head x && canExit g r c); reflexivity.
Qed.

Lemma moves_of_filter g rs cs :
  flat_map (fun r => flat_map (fun c =>
      match get g r c with
      | Some x => if head x && canExit g r c then [(r, c)] else []
      | None => []
      end) cs) rs =
  filter (exit_here g) (flat_map (fun r => map (fun c => (r, c)) cs) rs).
Proof.
  induction rs as [|r rs IH]; [reflexivity|]. cbn [flat_map].
  rewrite filter_app, IH, moves_of_filter_row. reflexivity.
Qed.

Lemma hint_scan_moves g : hint_scan g = hd_error (moves_of (length g) (length (nth 0 g [])) g).
Proof.
  unfold hint_scan, moves_of. rewrite moves_of_filter, find_hd_filter. reflexivity.
Qed.

Lemma hint_scan_found g r c :
  hint_scan g = Some (r, c) -> exists x, get g r c = Some x /\ head x = true /\ canExit g r c = true.
Proof.
  unfold hint_scan. intros E. apply find_some in E as [_ E].
  destruct (get g r c) as [x|]; [|discriminate].
  apply andb_prop in E as [H1 H2]. eauto.
Qed.

Lemma hint_scan_none g r c x :
  rect g -> hint_scan g = None -> get g r c = Some x -> head x && canExit g r c = false.
Proof.
  intros Hr E Hg. unfold hint_scan in E.
  destruct (get_some_range _ _ _ _ Hg) as [H1 H2]. rewrite Hr in H2 by auto.
  assert (Hin : In (r, c) (flat_map (fun r => map (fun c => (r, c)) (seq 0 (length (nth 0 g []))))
                            (seq 0 (length g)))).
  { apply in_flat_map. exists r. split; [apply in_seq; lia|].
    apply in_map_iff. exists c. split; auto. apply in_seq; lia. }
  pose proof (find_none _ _ E (r, c) Hin) as Hf. simpl in Hf. rewrite Hg in Hf. exact Hf.
Qed.

Lemma get_z_sub g g' :
  (forall r c y, get g' r c = Some y -> get g r c = Some y) ->
  forall rr cc y, get_z g' rr cc = Some y -> get_z g rr cc = Some y.
Proof.
  intros H rr cc y. unfold get_z. destruct ((rr <? 0)%Z || (cc <? 0)%Z); [discriminate|]. apply H.
Qed.

Lemma exit_walk_sub g g' i H W dr dc :
  (forall rr cc y, get_z g' rr cc = Some y -> get_z g rr cc = Some y) ->
  forall f rr cc, exit_walk g i H W dr dc f rr cc = true -> exit_walk g' i H W dr dc f rr cc = true.
Proof.
  intros Hsub f. induction f as [|f IH]; intros rr cc E; simpl in *; auto.
  destruct ((0 <=? rr)%Z && (rr <? H)%Z && (0 <=? cc)%Z && (cc <? W)%Z); auto.
  destruct (get_z g' rr cc) as [y|] eqn:Hy.
  - rewrite (Hsub _ _ _ Hy) in E. destruct (negb (Nat.eqb (id y) i)); auto.
  - apply IH. destruct (get_z g rr cc) as [y|]; auto. destruct (negb (Nat.eqb (id y) i)); auto.
    discriminate.
Qed.

(** [canExit] only gets easier when cells are emptied. *)
Lemma canExit_sub g g' r c :
  same_shape g' g ->
  (forall r c y, get g' r c = Some y -> get g r c = Some y) ->
  get g' r c = get g r c ->
  canExit g r c = true -> canExit g' r c = true.
Proof.
  intros [Hl Hw] Hsub Hrc. unfold canExit. rewrite Hrc, Hl, (Hw 0).
  destruct (get g r c) as [x|]; auto. destruct (negb (head x)); auto.
  destruct (DIR_VECTORS (dir x)) as [dr dc].
  apply exit_walk_sub. apply get_z_sub. exact Hsub.
Qed.

Lemma removeAll_sub g i r c y : get (removeAll g i) r c = Some y -> get g r c = Some y.
Proof. rewrite get_removeAll. destruct (hit i (get g r c)); [discriminate|auto]. Qed.

Lemma canExit_removeAll g i r c x :
  canExit g r c = true -> get g r c = Some x -> id x <> i -> canExit (removeAll g i) r c = true.
Proof.
  intros He Hg Hne. apply (canExit_sub g); auto.
  - apply shape_removeAll.
  - intros; eapply removeAll_sub; eauto.
  - rewrite get_removeAll, Hg. simpl. destruct (Nat.eqb_spec (id x) i); [contradiction|auto].
Qed.

(** Removing the pieces whose ids are in [S]. *)
Definition anyhit (S : list nat) (o : option cell) : bool := existsb (fun i => hit i o) S.

Definition removeMany (g : grid) (S : list nat) : grid :=
  map (map (fun o => if anyhit S o then None else o)) g.

Lemma removeMany_nil g : removeMany g [] = g.
Proof.
  unfold removeMany. rewrite <- (map_id g) at 2. apply map_ext. intros r.
  rewrite <- (map_id r) at 2. apply map_ext. reflexivity.
Qed.

Lemma removeAll_removeMany g S i : removeAll (removeMany g S) i = removeMany g (i :: S).
Proof.
  unfold removeAll, removeMany. rewrite map_map. apply map_ext. intros r.
  rewrite map_map. apply map_ext. intros o. simpl.
  destruct (anyhit S o) eqn:E; simpl; [destruct (hit i o); reflexivity|].
  destruct (hit i o); reflexivity.
Qed.

Lemma removeMany_removeAll g S i : removeMany (removeAll g i) S = removeMany g (i :: S).
Proof.
  unfold removeAll, removeMany. rewrite map_map. apply map_ext. intros r.
  rewrite map_map. apply map_ext. intros o. simpl.
  destruct (hit i o) eqn:E; simpl.
  - unfold anyhit. induction S; simpl; auto.
  - reflexivity.
Qed.

Lemma removeMany_mem g S i : In i S -> removeMany g (i :: S) = removeMany g S.
Proof.
  intros Hi. unfold removeMany. apply map_ext. intros r. apply map_ext. intros o. simpl.
  destruct (hit i o) eqn:E; simpl; auto.
  assert (anyhit S o = true) as ->; auto.
  unfold anyhit. apply existsb_exists. exists i. auto.
Qed.

Lemma get_removeMany g S r c :
  get (removeMany g S) r c = if anyhit S (get g r c) then None else get g r c.
Proof.
  unfold removeMany, get. rewrite nth_map_grid by reflexivity.
  rewrite nth_map_row by (destruct (anyhit S None); reflexivity). reflexivity.
Qed.

Lemma shape_removeMany g S : same_shape (removeMany g S) g.
Proof.
  unfold removeMany. split; [apply length_map|].
  intros k. rewrite nth_map_grid by reflexivity. apply length_map.
Qed.

Lemma allEmpty_removeMany g S : allEmpty g = true -> allEmpty (removeMany g S) = true.
Proof.
  rewrite !allEmpty_spec. intros H r c. rewrite get_removeMany, H.
  destruct (anyhit S None); auto.
Qed.

Lemma replay_removeMany ms : forall g S g',
  replay removeAll g ms = Some g' -> allEmpty g' = true -> clearable (removeMany g S).
Proof.
  induction ms as [|[r c] ms IH]; intros g S g' E He; simpl in E.
  - injection E as <-. exists [], (removeMany g S). split; auto. apply allEmpty_removeMany; auto.
  - destruct (canExit g r c) eqn:Hc; [|discriminate].
    destruct (get g r c) as [x|] eqn:Hg; [|discriminate].
    destruct (IH _ S _ E He) as (ms' & g'' & E' & He').
    rewrite removeMany_removeAll in E'.
    destruct (anyhit S (Some x)) eqn:Hh.
    + unfold anyhit in Hh. apply existsb_exists in Hh as (i & Hi & Hhi). simpl in Hhi.
      apply Nat.eqb_eq in Hhi. subst i.
      rewrite removeMany_mem in E' by auto. exists ms', g''. auto.
    + assert (Hg' : get (removeMany g S) r c = Some x) by (rewrite get_removeMany, Hg, Hh; auto).
      exists ((r, c) :: ms'), g''. split; auto. simpl.
      rewrite (canExit_sub g (removeMany g S) r c); auto.
      * rewrite Hg', removeAll_removeMany. exact E'.
      * apply shape_removeMany.
      * intros r' c' y. rewrite get_removeMany. destruct (anyhit S (get g r' c')); [discriminate|auto].
      * rewrite Hg', Hg. reflexivity.
Qed.

Lemma clearable_removeAll g i : clearable g -> clearable (removeAll g i).
Proof.
  intros (ms & g' & E & He).
  replace (removeAll g i) with (removeMany g [i]).
  - apply (replay_removeMany ms g [i] g' E He).
  - rewrite <- removeAll_removeMany, removeMany_nil. reflexivity.
Qed.

Lemma handleClick_cases g h r c st' :
  rect g -> handleClick (mkUI g h) r c = Ret st' ->
  ugrid st' = g \/ exists x, get g r c = Some x /\ canExit g r c = true /\ ugrid st' = removeAll g (id x).
Proof.
  intros Hr E. unfold handleClick in E. cbn [ugrid] in E.
  destruct (Nat.ltb r (length g)); [|discriminate].
  destruct (get g r c) as [x|] eqn:Hg; [|injection E as <-; auto].
  destruct (negb (head x)); [injection E as <-; auto|].
  destruct (canExit g r c) eqn:He.
  - injection E as <-. right. exists x. split; auto. split; auto. simpl.
    rewrite cloneGrid_id, removeId_rect; auto.
  - injection E as <-. auto.
Qed.

Lemma removeAll_comm g i j : removeAll (removeAll g i) j = removeAll (removeAll g j) i.
Proof.
  unfold removeAll. rewrite !map_map. apply map_ext. intros r. rewrite !map_map.
  apply map_ext. intros o. destruct (hit i o) eqn:Hi, (hit j o) eqn:Hj; simpl; rewrite ?Hi, ?Hj; auto.
Qed.

Lemma get_p_removeAll g i p : get_p (removeAll g i) p = if hit i (get_p g p) then None else get_p g p.
Proof.
  destruct p as [a b]. unfold get_p, get_z. simpl.
  destruct ((a <? 0)%Z || (b <? 0)%Z); auto. apply get_removeAll.
Qed.

Lemma get_p_removeAll_some g i p y : get_p (removeAll g i) p = Some y -> get_p g p = Some y /\ id y <> i.
Proof.
  rewrite get_p_removeAll. destruct (get_p g p) as [x|]; simpl; [|discriminate].
  destruct (Nat.eqb_spec (id x) i); [discriminate|]. intros E; injection E as <-. auto.
Qed.

Lemma get_p_removeAll_keep g i p y : get_p g p = Some y -> id y <> i -> get_p (removeAll g i) p = Some y.
Proof.
  intros E Hne. rewrite get_p_removeAll, E. simpl. destruct (Nat.eqb_spec (id y) i); [contradiction|auto].
Qed.

Lemma grid_invariant_removeAll rows cols g i :
  grid_invariant rows cols g -> grid_invariant rows cols (removeAll g i).
Proof.
  intros (Hd & Hb & Hpi & Hu & Hex).
  split; [|split; [|split; [|split]]].
  - destruct Hd as [Hl Hw]. destruct (shape_removeAll g i) as [Hl' Hw']. split; [congruence|].
    intros k Hk. rewrite Hw'. auto.
  - intros p x E. apply get_p_removeAll_some in E as [E _]. eauto.
  - intros p x E. destruct (get_p_removeAll_some _ _ _ _ E) as [Eg Hne].
    destruct (Hpi p x Eg) as (h & Hrun & Huniq). exists h. split.
    + intros k Hk. apply get_p_removeAll_keep; auto.
    + intros p' y E' Hid. apply get_p_removeAll_some in E' as [E' _]. eauto.
  - intros p q x y Ep Eq. apply get_p_removeAll_some in Ep as [Ep _].
    apply get_p_removeAll_some in Eq as [Eq _]. eauto.
  - intros p x E. destruct (get_p_removeAll_some _ _ _ _ E) as [Eg Hne].
    destruct (Hex p x Eg) as (q & h & Eh & Hid & Hh). exists q, h. split; auto.
    apply get_p_removeAll_keep; auto. congruence.
Qed.

Lemma dims_rect rows cols g : dims rows cols g -> rect g.
Proof.
  intros [Hl Hw] r Hr. rewrite Hl in Hr. rewrite !Hw by lia. reflexivity.
Qed.

Lemma play_invariant rows cols ms : forall g h st',
  grid_invariant rows cols g -> play (mkUI g h) ms = Ret st' -> grid_invariant rows cols (ugrid st').
Proof.
  induction ms as [|[r c] ms IH]; intros g h st' Hinv E; simpl in E.
  - injection E as <-. exact Hinv.
  - destruct (handleClick (mkUI g h) r c) as [|st1] eqn:Ec; [discriminate|].
    destruct st1 as [g1 h1].
    assert (Hinv1 : grid_invariant rows cols g1).
    { destruct (handleClick_cases g h r c _ (dims_rect rows cols g (proj1 Hinv)) Ec)
        as [E1|(x & _ & _ & E1)]; simpl in E1; subst g1; auto.
      apply grid_invariant_removeAll; auto. }
    exact (IH g1 h1 st' Hinv1 E).
Qed.

Lemma arrows_left_zero g :
  arrows_left g = 0 -> forall r c x, get g r c = Some x -> head x = false.
Proof.
  unfold arrows_left. intros Hz r c x Hg. destruct (head x) eqn:Hh; auto.
  destruct (get_some_range _ _ _ _ Hg) as [H1 H2].
  assert (Hin : In (Some x) (concat g)).
  { apply in_concat. exists (nth r g []). split; [apply nth_In; auto|].
    unfold get in Hg. rewrite <- Hg. apply nth_In. auto. }
  assert (Hf : In (Some x) (filter (fun o => match o with Some x => head x | None => false end) (concat g)))
    by (apply filter_In; split; auto).
  destruct (filter _ (concat g)); [contradiction|discriminate].
Qed.

Lemma arrows_left_empty g : allEmpty g = true -> arrows_left g = 0.
Proof.
  unfold allEmpty, arrows_left. induction g as [|r g IH]; simpl; auto.
  intros H. apply andb_prop in H as [Hr Hg]. rewrite filter_app, length_app, IH by auto.
  assert (filter (fun o => match o with Some x => head x | None => false end) r = []) as ->; auto.
  induction r as [|o r IHr]; simpl in *; auto. destruct o; [discriminate|auto].
Qed.

Lemma get_p_nat g (r c : nat) : get_p g (Z.of_nat r, Z.of_nat c) = get g r c.
Proof. unfold get_p. simpl. apply get_z_nat. Qed.

Lemma get_p_get g p x : get_p g p = Some x -> get g (Z.to_nat (fst p)) (Z.to_nat (snd p)) = Some x.
Proof.
  destruct p as [a b]. unfold get_p, get_z. simpl.
  destruct ((a <? 0)%Z || (b <? 0)%Z); [discriminate|auto].
Qed.

Lemma arrows_left_cleared rows cols g :
  grid_invariant rows cols g -> (arrows_left g = 0 <-> cleared g = true).
Proof.
  intros (_ & _ & _ & _ & Hex). unfold cleared. split; [|apply arrows_left_empty].
  intros Hz. apply allEmpty_spec. intros r c.
  destruct (get g r c) as [x|] eqn:Hg; auto. exfalso.
  rewrite <- get_p_nat in Hg. destruct (Hex _ _ Hg) as (q & h & Eh & _ & Hh).
  apply get_p_get in Eh. rewrite (arrows_left_zero g Hz _ _ _ Eh) in Hh. discriminate.
Qed.

Lemma get_fallback rows cols r c :
  1 <= rows -> 2 <= cols ->
  get (fallback rows cols) r c =
    if Nat.eqb r 0 && Nat.eqb c 0 then Some (mkCell 1 R 1 true)
    else if Nat.eqb r 0 && Nat.eqb c 1 then Some (mkCell 1 R 1 false)
    else None.
Proof.
  intros Hr Hc. unfold fallback.
  rewrite (proj2 (Nat.leb_le 1 rows)), (proj2 (Nat.leb_le 2 cols)), (proj2 (Nat.ltb_lt 1 cols)) by lia.
  simpl andb. cbv iota.
  rewrite !get_set_cell, length_set_cell, length_row_set_cell, length_empty_grid,
    row_empty_grid, repeat_length, get_empty_grid by lia.
  destruct (Nat.eqb_spec r 0), (Nat.eqb_spec c 0), (Nat.eqb_spec c 1); subst; simpl;
    repeat (rewrite (proj2 (Nat.ltb_lt _ _)) by lia); simpl; auto; lia.
Qed.

Lemma canExit_fallback rows cols : 1 <= rows -> 2 <= cols -> canExit (fallback rows cols) 0 0 = true.
Proof.
  intros Hr Hc. destruct (fallback_dims rows cols) as [Hl Hw].
  apply (canExit_clear_iff _ 0 0 (mkCell 1 R 1 true)).
  - lia.
  - rewrite Hw; lia.
  - rewrite get_fallback by auto. reflexivity.
  - reflexivity.
  - intros k Hk _. cbn [dir DIR_VECTORS fst snd id].
    replace (Z.of_nat 0 + Z.of_nat k * 0)%Z with (Z.of_nat 0) by lia.
    replace (Z.of_nat 0 + Z.of_nat k * 1)%Z with (Z.of_nat k) by lia.
    unfold clear_cell. rewrite get_z_nat, get_fallback by auto.
    destruct (Nat.eqb_spec k 0); [lia|]. simpl.
    destruct (Nat.eqb_spec k 1); simpl; auto.
Qed.

Lemma removeAll_fallback rows cols :
  1 <= rows -> 2 <= cols -> removeAll (fallback rows cols) 1 = empty_grid rows cols.
Proof.
  intros Hr Hc. destruct (fallback_dims rows cols) as [Hl Hw]. apply grid_ext.
  - eapply same_shape_trans; [apply shape_removeAll|]. split; [rewrite Hl, length_empty_grid; auto|].
    intros k. destruct (Nat.lt_ge_cases k rows).
    + rewrite Hw, row_empty_grid, repeat_length; auto.
    + rewrite !nth_overflow; auto; [rewrite length_empty_grid|rewrite Hl]; lia.
  - intros r c. rewrite get_removeAll, get_empty_grid, get_fallback by auto.
    destruct (Nat.eqb r 0 && Nat.eqb c 0); [reflexivity|].
    destruct (Nat.eqb r 0 && Nat.eqb c 1); reflexivity.
Qed.

Lemma rect_fallback rows cols : rect (fallback rows cols).
Proof.
  destruct (fallback_dims rows cols) as [Hl Hw]. apply (dims_rect rows cols). split; auto.
Qed.

Lemma attempts_accepted rows cols rnd remaining :
  forall idc n g, attempts rows cols rnd remaining idc n = Some g ->
  hasArrow g && hasImmediateExit g = true /\ exists ms, findSolutionLimited g 20000 = Ret (Some ms).
Proof.
  induction remaining as [|m IH]; intros idc n g E; simpl in E; [discriminate|].
  destruct (build_attempt rows cols rnd idc n) as [[g0 idc0] n0].
  destruct (hasArrow g0 && hasImmediateExit g0) eqn:Hb; [|eapply IH; eauto].
  match type of E with context [findSolutionLimited g0 ?b] =>
    destruct (findSolutionLimited g0 b) as [|[s|]] eqn:Es end.
  - eapply IH; eauto.
  - injection E as <-. split; auto. exists s. exact Es.
  - eapply IH; eauto.
Qed.

Lemma attempts_rect rows cols rnd remaining idc n g :
  attempts rows cols rnd remaining idc n = Some g -> rect g /\ grid_invariant rows cols g.
Proof.
  intros E. destruct (attempts_ok rows cols rnd remaining idc n g E) as [idc' Hinv].
  split; [apply (dims_rect rows cols), (proj1 Hinv)|]. eapply gen_inv_grid_invariant; eauto.
Qed.

Lemma stuck_cleared g h :
  rect g -> clearable g -> snd (giveHint (mkUI g h)) = true -> cleared g = true.
Proof.
  intros Hr (ms & g' & E & He) Ha. unfold giveHint in Ha. cbn [ugrid] in Ha.
  destruct (hint_scan g) as [m|] eqn:Hs; [discriminate|].
  destruct ms as [|[r c] ms]; simpl in E.
  - injection E as <-. exact He.
  - destruct (canExit g r c) eqn:Hc; [|discriminate].
    destruct (get g r c) as [x|] eqn:Hg; [|discriminate].
    pose proof (hint_scan_none g r c x Hr Hs Hg) as Hn. rewrite Hc, andb_true_r in Hn.
    destruct (canExit_head _ _ _ Hc) as (x' & Hg' & Hh). rewrite Hg in Hg'. injection Hg' as <-.
    congruence.
Qed.

Lemma hint_click g h st' :
  rect g -> giveHint (mkUI g h) = (st', false) ->
  exists r c x, uhint st' = Some (r, c) /\ ugrid st' = g /\ get g r c = Some x /\ head x = true /\
    handleClick st' r c = Ret (mkUI (removeAll g (id x)) None).
Proof.
  intros Hr E. unfold giveHint in E. cbn [ugrid] in E.
  destruct (hint_scan g) as [[r c]|] eqn:Hs; [|discriminate]. injection E as <-.
  destruct (hint_scan_found _ _ _ Hs) as (x & Hg & Hh & Hc).
  exists r, c, x. repeat split; auto. apply handleClick_exit; auto.
Qed.

Lemma allEmpty_no_ids g : cell_ids g = [] -> allEmpty g = true.
Proof.
  intros E. apply allEmpty_spec. intros r c. destruct (get g r c) as [x|] eqn:Hg; auto.
  pose proof (get_In_cell_ids _ _ _ _ Hg) as Hin. rewrite E in Hin. contradiction.
Qed.

Lemma grid_ids_removeAll g r c x :
  get g r c = Some x -> S (length (grid_ids (removeAll g (id x)))) <= length (grid_ids g).
Proof.
  intros Hg. unfold grid_ids.
  change (S (length (nodup Nat.eq_dec (cell_ids (removeAll g (id x))))))
    with (length (id x :: nodup Nat.eq_dec (cell_ids (removeAll g (id x))))).
  apply NoDup_incl_length.
  - constructor; [|apply NoDup_nodup]. rewrite nodup_In, cell_ids_removeAll. tauto.
  - intros i [<-|Hi]; apply nodup_In.
    + eapply get_In_cell_ids; eauto.
    + apply nodup_In, cell_ids_removeAll in Hi. tauto.
Qed.

(** A player who presses Hint and then clicks the marked cell, [n] times at
    most, stopping at the "No arrow can exit" alert. *)
Fixpoint follow_hints (n : nat) (st : ui) : js ui :=
  match n with
  | O => Ret st
  | S n' =>
      let '(st1, alert) := giveHint st in
      if alert then Ret st1
      else match uhint st1 with
           | Some (r, c) =>
               match handleClick st1 r c with
               | Throw => Throw
               | Ret st2 => follow_hints n' st2
               end
           | None => Ret st1
           end
  end.

Lemma follow_hints_clears n : forall g h,
  rect g -> clearable g -> length (grid_ids g) <= n ->
  exists st', follow_hints n (mkUI g h) = Ret st' /\ cleared (ugrid st') = true.
Proof.
  induction n as [|n IH]; intros g h Hr Hc Hn.
  - exists (mkUI g h). split; auto. unfold cleared. apply allEmpty_no_ids.
    destruct (cell_ids g) as [|i l] eqn:E; auto. exfalso.
    assert (Hi : In i (grid_ids g)) by (apply nodup_In; rewrite E; left; auto).
    destruct (grid_ids g); [contradiction|simpl in Hn; lia].
  - cbn [follow_hints].
    destruct (giveHint (mkUI g h)) as [st1 alert] eqn:Eh. destruct alert.
    + exists st1. split; auto.
      pose proof (stuck_cleared g h Hr Hc) as Hs. rewrite Eh in Hs. simpl in Hs.
      unfold giveHint in Eh. cbn [ugrid] in Eh.
      destruct (hint_scan g); injection Eh as <-; simpl; auto.
    + destruct (hint_click g h st1 Hr Eh) as (r & c & x & Hu & _ & Hg & _ & Hk).
      rewrite Hu, Hk. apply IH.
      * apply rect_removeAll; auto.
      * apply clearable_removeAll; auto.
      * pose proof (grid_ids_removeAll g r c x Hg). lia.
Qed.

(** Concrete boards for the examples below. *)
Definition rnd_demo : nat -> draw :=
  fun n => match n with 0 => Some (U, 1) | 1 => Some (L, 0) | _ => None end.

(** The level [rnd_demo] builds on a 2x2 board: piece 1 going Up from (0,0)
    over (1,0), piece 2 at (0,1) going Left, blocked by piece 1. *)
Definition demo_level : grid :=
  [[Some (mkCell 1 U 2 true); Some (mkCell 2 L 1 true)];
   [Some (mkCell 1 U 2 false); None]].

(** Two length-1 pieces side by side, both going Up. *)
Definition demo_pair : grid :=
  [[Some (mkCell 1 U 1 true); Some (mkCell 2 U 1 true)]; [None; None]].

Lemma rect_demo_level : rect demo_level.
Proof. intros [|[|r]] Hr; simpl in *; auto; lia. Qed.

Lemma rect_demo_pair : rect demo_pair.
Proof. intros [|[|r]] Hr; simpl in *; auto; lia. Qed.

(** X1: clicking a head that can exit, on a rectangular grid, empties every
    cell of that piece, keeps every other cell, and clears the hint. *)
Theorem handleClick_removes_piece (g : grid) (h : option move) (r c : nat) (x : cell) :
  rect g -> get g r c = Some x -> canExit g r c = true ->
  handleClick (mkUI g h) r c = Ret (mkUI (removeAll g (id x)) None).
Proof. intros Hr Hg He. apply handleClick_exit; auto. Qed.

Lemma handleClick_removes_piece_witness :
  get demo_level 0 0 = Some (mkCell 1 U 2 true) /\ canExit demo_level 0 0 = true /\
  handleClick (mkUI demo_level None) 0 0 =
    Ret (mkUI (removeAll demo_level (id (mkCell 1 U 2 true))) None).
Proof.
  split; [reflexivity|]. split; [vm_compute; reflexivity|].
  apply (handleClick_removes_piece demo_level None 0 0 (mkCell 1 U 2 true) rect_demo_level);
    [reflexivity|vm_compute; reflexivity].
Defined.

(** X2: the Hint button marks the first move of the list the solver expands
    ([moves_of] over the grid's rows and the length of row 0), and shows the
    "No arrow can exit" alert exactly when that list is empty. *)
Theorem giveHint_first_move (st : ui) :
  giveHint st =
  match moves_of (length (ugrid st)) (length (nth 0 (ugrid st) [])) (ugrid st) with
  | m :: _ => (mkUI (ugrid st) (Some m), false)
  | [] => (mkUI (ugrid st) None, true)
  end.
Proof.
  unfold giveHint. rewrite hint_scan_moves.
  destruct (moves_of (length (ugrid st)) (length (nth 0 (ugrid st) [])) (ugrid st)); reflexivity.
Qed.

(** X3: when Hint marks a cell on a rectangular grid, that cell holds a head,
    and clicking it removes the whole piece. *)
Theorem hint_click_removes (g : grid) (h : option move) (st' : ui) :
  rect g -> giveHint (mkUI g h) = (st', false) ->
  exists r c x, uhint st' = Some (r, c) /\ ugrid st' = g /\ get g r c = Some x /\ head x = true /\
    handleClick st' r c = Ret (mkUI (removeAll g (id x)) None).
Proof. intros Hr E. exact (hint_click g h st' Hr E). Qed.

Lemma hint_click_removes_witness :
  giveHint (mkUI demo_level None) = (mkUI demo_level (Some (0, 0)), false) /\
  exists r c x, uhint (mkUI demo_level (Some (0, 0))) = Some (r, c) /\
    ugrid (mkUI demo_level (Some (0, 0))) = demo_level /\ get demo_level r c = Some x /\
    head x = true /\
    handleClick (mkUI demo_level (Some (0, 0))) r c = Ret (mkUI (removeAll demo_level (id x)) None).
Proof.
  assert (E : giveHint (mkUI demo_level None) = (mkUI demo_level (Some (0, 0)), false))
    by (vm_compute; reflexivity).
  split; [exact E|]. exact (hint_click_removes demo_level None _ rect_demo_level E).
Defined.

(** X4: removing another piece never blocks a head that could exit. *)
Theorem canExit_after_removal (g : grid) (i r c : nat) (x : cell) :
  canExit g r c = true -> get g r c = Some x -> id x <> i -> canExit (removeAll g i) r c = true.
Proof. intros He Hg Hne. eapply canExit_removeAll; eauto. Qed.

Lemma canExit_after_removal_witness :
  canExit demo_level 0 0 = true /\ get demo_level 0 0 = Some (mkCell 1 U 2 true) /\
  canExit (removeAll demo_level 2) 0 0 = true.
Proof.
  split; [vm_compute; reflexivity|]. split; [reflexivity|].
  apply (canExit_after_removal demo_level 2 0 0 (mkCell 1 U 2 true));
    [vm_compute; reflexivity|reflexivity|discriminate].
Defined.

(** X5: no dead ends: on a rectangular grid that some sequence of exits
    clears, every click leaves a grid that can still be cleared. *)
Theorem click_keeps_clearable (g : grid) (h : option move) (r c : nat) (st' : ui) :
  rect g -> clearable g -> handleClick (mkUI g h) r c = Ret st' -> clearable (ugrid st').
Proof.
  intros Hr Hc E. destruct (handleClick_cases g h r c st' Hr E) as [->|(x & _ & _ & ->)]; auto.
  apply clearable_removeAll; auto.
Qed.

Lemma click_keeps_clearable_witness :
  clearable demo_level /\
  handleClick (mkUI demo_level None) 0 0 = Ret (mkUI (removeAll demo_level 1) None) /\
  clearable (removeAll demo_level 1).
Proof.
  assert (Hc : clearable demo_level)
    by (exists [(0, 0); (0, 1)], (empty_grid 2 2); split; vm_compute; reflexivity).
  assert (E : handleClick (mkUI demo_level None) 0 0 = Ret (mkUI (removeAll demo_level 1) None))
    by (vm_compute; reflexivity).
  split; [exact Hc|]. split; [exact E|].
  exact (click_keeps_clearable demo_level None 0 0 _ rect_demo_level Hc E).
Defined.

(** X6: on a rectangular grid that can be cleared, the "No arrow can exit"
    alert appears only when the board is already cleared. *)
Theorem hint_alert_only_when_cleared (g : grid) (h : option move) :
  rect g -> clearable g -> snd (giveHint (mkUI g h)) = true -> cleared g = true.
Proof. intros Hr Hc Ha. exact (stuck_cleared g h Hr Hc Ha). Qed.

Lemma hint_alert_only_when_cleared_witness :
  snd (giveHint (mkUI (empty_grid 2 2) None)) = true /\ cleared (empty_grid 2 2) = true.
Proof.
  assert (Hr : rect (empty_grid 2 2)) by (intros [|[|r]] Hr; simpl in *; auto; lia).
  assert (Hc : clearable (empty_grid 2 2)) by (exists [], (empty_grid 2 2); split; reflexivity).
  assert (Ha : snd (giveHint (mkUI (empty_grid 2 2) None)) = true) by (vm_compute; reflexivity).
  split; [exact Ha|]. exact (hint_alert_only_when_cleared _ None Hr Hc Ha).
Defined.

(** X7: on a rectangular grid that can be cleared, pressing Hint and clicking
    the marked cell, once per piece id, clears the board. *)
Theorem follow_hints_clears_level (g : grid) (h : option move) :
  rect g -> clearable g ->
  exists st', follow_hints (length (grid_ids g)) (mkUI g h) = Ret st' /\ cleared (ugrid st') = true.
Proof. intros Hr Hc. apply follow_hints_clears; auto. Qed.

Lemma follow_hints_clears_level_witness :
  follow_hints (length (grid_ids demo_level)) (mkUI demo_level None) =
    Ret (mkUI (empty_grid 2 2) None) /\
  exists st', follow_hints (length (grid_ids demo_level)) (mkUI demo_level None) = Ret st' /\
    cleared (ugrid st') = true.
Proof.
  split; [vm_compute; reflexivity|].
  apply (follow_hints_clears_level demo_level None rect_demo_level).
  exists [(0, 0); (0, 1)], (empty_grid 2 2). split; vm_compute; reflexivity.
Defined.

(** X8: two heads of different pieces that can both exit can be clicked in
    either order, with the same result. *)
Theorem clicks_commute (g : grid) (h : option move) (r1 c1 r2 c2 : nat) (x1 x2 : cell) :
  rect g -> get g r1 c1 = Some x1 -> get g r2 c2 = Some x2 ->
  canExit g r1 c1 = true -> canExit g r2 c2 = true -> id x1 <> id x2 ->
  play (mkUI g h) [(r1, c1); (r2, c2)] = Ret (mkUI (removeAll (removeAll g (id x1)) (id x2)) None) /\
  play (mkUI g h) [(r2, c2); (r1, c1)] = Ret (mkUI (removeAll (removeAll g (id x1)) (id x2)) None).
Proof.
  intros Hr H1 H2 E1 E2 Hne.
  assert (G2 : get (removeAll g (id x1)) r2 c2 = Some x2).
  { rewrite get_removeAll, H2. simpl. destruct (Nat.eqb_spec (id x2) (id x1)); [congruence|auto]. }
  assert (G1 : get (removeAll g (id x2)) r1 c1 = Some x1).
  { rewrite get_removeAll, H1. simpl. destruct (Nat.eqb_spec (id x1) (id x2)); [congruence|auto]. }
  split; cbn [play].
  - rewrite (handleClick_exit g h r1 c1 x1 Hr H1 E1).
    rewrite (handleClick_exit _ None r2 c2 x2 (rect_removeAll g _ Hr) G2); [reflexivity|].
    apply (canExit_removeAll g (id x1) r2 c2 x2); auto.
  - rewrite (handleClick_exit g h r2 c2 x2 Hr H2 E2).
    rewrite (handleClick_exit _ None r1 c1 x1 (rect_removeAll g _ Hr) G1).
    + rewrite removeAll_comm. reflexivity.
    + apply (canExit_removeAll g (id x2) r1 c1 x1); auto.
Qed.

Lemma clicks_commute_witness :
  play (mkUI demo_pair None) [(0, 0); (0, 1)] = Ret (mkUI (empty_grid 2 2) None) /\
  play (mkUI demo_pair None) [(0, 1); (0, 0)] = Ret (mkUI (empty_grid 2 2) None).
Proof.
  destruct (clicks_commute demo_pair None 0 0 0 1 (mkCell 1 U 1 true) (mkCell 2 U 1 true)
              rect_demo_pair eq_refl eq_refl ltac:(vm_compute; reflexivity)
              ltac:(vm_compute; reflexivity) ltac:(discriminate)) as [A B].
  rewrite A, B. split; vm_compute; reflexivity.
Defined.

(** X9: clicking the cells of a solution the solver returns, on a rectangular
    grid, clears the board. *)
Theorem solver_solution_clears_by_clicks (g : grid) (h : option move) (maxStates : nat) (ms : list move) :
  rect g -> findSolutionLimited g maxStates = Ret (Some ms) ->
  exists st', play (mkUI g h) ms = Ret st' /\ cleared (ugrid st') = true.
Proof.
  intros Hr Hs. destruct (solve_sound_core g maxStates ms Hs) as (g' & E & He).
  destruct (play_replay g h ms g' Hr E) as [h' Hp]. exists (mkUI g' h'). auto.
Qed.

Lemma solver_solution_clears_by_clicks_witness :
  findSolutionLimited demo_level 20000 = Ret (Some [(0, 0); (0, 1)]) /\
  exists st', play (mkUI demo_level None) [(0, 0); (0, 1)] = Ret st' /\ cleared (ugrid st') = true.
Proof.
  assert (E : findSolutionLimited demo_level 20000 = Ret (Some [(0, 0); (0, 1)]))
    by (vm_compute; reflexivity).
  split; [exact E|]. exact (solver_solution_clears_by_clicks demo_level None 20000 _ rect_demo_level E).
Defined.

(** X10: a level the generator accepts has an arrow, has a head that can exit
    at once, and is solved by the solver within 20000 states; clicking the
    solver's moves clears it. *)
Theorem accepted_level_playable (rows cols : nat) (rnd : nat -> draw) (remaining idc n : nat) (g : grid) :
  attempts rows cols rnd remaining idc n = Some g ->
  hasArrow g = true /\
  (exists r c x, get g r c = Some x /\ head x = true /\ canExit g r c = true) /\
  exists ms, findSolutionLimited g 20000 = Ret (Some ms) /\
    exists st', play (mkUI g None) ms = Ret st' /\ cleared (ugrid st') = true.
Proof.
  intros E. destruct (attempts_accepted rows cols rnd remaining idc n g E) as [Hb (ms & Hs)].
  destruct (attempts_rect rows cols rnd remaining idc n g E) as [Hr _].
  apply andb_prop in Hb as [Ha Hi]. split; [exact Ha|]. split.
  - unfold hasImmediateExit in Hi. apply andb_prop in Hi as [_ Hi].
    apply existsb_exists in Hi as (r & Hr' & Hi). apply existsb_exists in Hi as (c & Hc' & Hi).
    destruct (get g r c) as [x|] eqn:Hg; [|discriminate].
    apply andb_prop in Hi as [Hh He]. exists r, c, x. auto.
  - exists ms. split; [exact Hs|].
    destruct (solve_sound_core g 20000 ms Hs) as (g' & Er & He).
    destruct (play_replay g None ms g' Hr Er) as [h' Hp]. exists (mkUI g' h'). auto.
Qed.

Lemma accepted_level_playable_witness :
  attempts 2 2 rnd_demo 1 1 0 = Some demo_level /\
  hasArrow demo_level = true /\
  (exists r c x, get demo_level r c = Some x /\ head x = true /\ canExit demo_level r c = true) /\
  exists ms, findSolutionLimited demo_level 20000 = Ret (Some ms) /\
    exists st', play (mkUI demo_level None) ms = Ret st' /\ cleared (ugrid st') = true.
Proof.
  assert (E : attempts 2 2 rnd_demo 1 1 0 = Some demo_level) by (vm_compute; reflexivity).
  split; [exact E|]. exact (accepted_level_playable 2 2 rnd_demo 1 1 0 demo_level E).
Defined.

(** X11: on a level the generator accepts, every sequence of clicks keeps the
    grid invariant of the generated levels. *)
Theorem accepted_level_invariant_under_play (rows cols : nat) (rnd : nat -> draw)
    (remaining idc n : nat) (g : grid) (h : option move) (ms : list move) (st' : ui) :
  attempts rows cols rnd remaining idc n = Some g -> play (mkUI g h) ms = Ret st' ->
  grid_invariant rows cols (ugrid st').
Proof.
  intros E Ep. destruct (attempts_rect rows cols rnd remaining idc n g E) as [_ Hinv].
  exact (play_invariant rows cols ms g h st' Hinv Ep).
Qed.

Lemma accepted_level_invariant_under_play_witness :
  attempts 2 2 rnd_demo 1 1 0 = Some demo_level /\
  play (mkUI demo_level None) [(0, 1); (0, 0)] = Ret (mkUI (removeAll demo_level 1) None) /\
  grid_invariant 2 2 (removeAll demo_level 1).
Proof.
  assert (E : attempts 2 2 rnd_demo 1 1 0 = Some demo_level) by (vm_compute; reflexivity).
  assert (Ep : play (mkUI demo_level None) [(0, 1); (0, 0)] = Ret (mkUI (removeAll demo_level 1) None))
    by (vm_compute; reflexivity).
  split; [exact E|]. split; [exact Ep|].
  exact (accepted_level_invariant_under_play 2 2 rnd_demo 1 1 0 demo_level None _ _ E Ep).
Defined.

(** X12: on a level the generator accepts, after any clicks the status line
    shows "Arrows left: 0" exactly when the board is cleared. *)
Theorem accepted_level_arrows_left (rows cols : nat) (rnd : nat -> draw)
    (remaining idc n : nat) (g : grid) (h : option move) (ms : list move) (st' : ui) :
  attempts rows cols rnd remaining idc n = Some g -> play (mkUI g h) ms = Ret st' ->
  (arrows_left (ugrid st') = 0 <-> cleared (ugrid st') = true).
Proof.
  intros E Ep. destruct (attempts_rect rows cols rnd remaining idc n g E) as [_ Hinv].
  apply (arrows_left_cleared rows cols). exact (play_invariant rows cols ms g h st' Hinv Ep).
Qed.

Lemma accepted_level_arrows_left_witness :
  attempts 2 2 rnd_demo 1 1 0 = Some demo_level /\
  play (mkUI demo_level None) [(0, 0)] = Ret (mkUI (removeAll demo_level 1) None) /\
  arrows_left (removeAll demo_level 1) = 1 /\
  (arrows_left (removeAll demo_level 1) = 0 <-> cleared (removeAll demo_level 1) = true).
Proof.
  assert (E : attempts 2 2 rnd_demo 1 1 0 = Some demo_level) by (vm_compute; reflexivity).
  assert (Ep : play (mkUI demo_level None) [(0, 0)] = Ret (mkUI (removeAll demo_level 1) None))
    by (vm_compute; reflexivity).
  split; [exact E|]. split; [exact Ep|]. split; [vm_compute; reflexivity|].
  exact (accepted_level_arrows_left 2 2 rnd_demo 1 1 0 demo_level None _ _ E Ep).
Defined.

(** X13: with at least 1 row and 2 columns, one click on (0,0) clears the
    fallback level. *)
Theorem fallback_one_click (rows cols : nat) (h : option move) :
  1 <= rows -> 2 <= cols ->
  play (mkUI (fallback rows cols) h) [(0, 0)] = Ret (mkUI (empty_grid rows cols) None) /\
  cleared (empty_grid rows cols) = true.
Proof.
  intros Hr Hc. split.
  - cbn [play]. rewrite (handleClick_exit _ h 0 0 (mkCell 1 R 1 true) (rect_fallback rows cols)).
    + rewrite removeAll_fallback by auto. reflexivity.
    + rewrite get_fallback by auto. reflexivity.
    + apply canExit_fallback; auto.
  - unfold cleared. apply allEmpty_spec. intros; apply get_empty_grid.
Qed.

Lemma fallback_one_click_witness :
  play (mkUI (fallback 3 4) None) [(0, 0)] = Ret (mkUI (empty_grid 3 4) None) /\
  cleared (empty_grid 3 4) = true.
Proof. apply (fallback_one_click 3 4 None); lia. Defined.
